(** * Coverage recording and evaluation of [brownie/cli/coverage.py]

    A shallow embedding of the coverage core of [main]: the trace recorder
    (source lines 87-125), the per-function evaluator (lines 127-163) and the
    bytecode content hash (lines 165-174), with the properties the
    specification states about them. *)

From Stdlib Require Import ZArith String.
From stdpp Require Import gmap strings list fin_maps.

Local Open Scope Z_scope.

(** ** Python exceptions and the error monad *)

(** The exceptions the modelled code can raise. *)
Inductive PyExc : Type :=
| KeyError
| IndexError
| ZeroDivisionError
| TypeError.

(** Outcome of a Python computation: a value, or a raised exception. *)
Inductive result (A : Type) : Type :=
| Ok (a : A)
| Raise (e : PyExc).
Arguments Ok {A} a.
Arguments Raise {A} e.

#[global] Instance result_ret : MRet result := fun A a => Ok a.
#[global] Instance result_bind : MBind result := fun A B f x =>
  match x with
  | Ok a => f a
  | Raise e => Raise e
  end.

(** Forgetting which exception was raised. *)
Definition succeeded {A} (x : result A) : option A :=
  match x with
  | Ok a => Some a
  | Raise _ => None
  end.

(** Monadic left fold: a [for] loop whose body may raise. *)
Fixpoint foldM {A S} (body : A -> S -> result S) (xs : list A) (s : S) : result S :=
  match xs with
  | [] => Ok s
  | x :: xs' => s' ← body x s; foldM body xs' s'
  end.

(** ** Data model *)

(** A run identifier: the transaction object [tx], used only as a set element. *)
Abbreviation Run := nat (only parsing).

(** The keys ['tx'], ['true'] and ['false'] of a line record.  The recorder
    creates the three together ([setdefault] in one loop), so a line either
    has none of them or all of them. *)
Record Marks : Type := mkMarks {
  hit_runs : gset Run;     (* ln['tx'] *)
  true_runs : gset Run;    (* ln['true'] *)
  false_runs : gset Run    (* ln['false'] *)
}.

(** Modelled from the spec: the loader that builds the coverage map is not
    part of the source; the spec gives the [jump] of a line record (an item
    of [maps['line']]) as an optional program counter, absent for a line
    without a conditional jump, next to its pc set.  The run sets are the
    keys the recorder adds. *)
Record LineRecord : Type := mkLine {
  ln_pc : list Z;              (* ln['pc'] *)
  ln_jump : option Z;          (* ln['jump'] *)
  ln_marks : option Marks      (* None: the key 'tx' is not in ln *)
}.

(** [maps] of one function: [maps['fn']['pc']], [maps['fn']['tx']] (an absent
    key and an empty set are not told apart by the source: line 129),
    [maps['line']] and [maps['total']]. *)
Record FnMaps : Type := mkFn {
  fn_pc : list Z;
  fn_tx : gset Run;
  line : list LineRecord;
  total : Z
}.

(** [coverage_map[name][source]]: the functions of one source file, in the
    dict's iteration order. *)
Abbreviation SourceMap := (list (string * FnMaps)) (only parsing).
(** [coverage_map[name]] *)
Abbreviation ContractMap := (gmap string (list (string * FnMaps))) (only parsing).
(** [coverage_map] *)
Abbreviation CoverageMap := (gmap string (gmap string (list (string * FnMaps)))) (only parsing).

(** One step [t] of [tx.trace]; an empty string stands for a falsy
    [contractName] or [source] file name. *)
Record Instr : Type := mkInstr {
  pc : Z;
  op : string;
  contractName : string;
  source : string
}.

(** A transaction of [history]. *)
Record Tx : Type := mkTx {
  tx_id : Run;
  receiver : bool;
  trace : list Instr
}.

(** ** Trace recorder (lines 87-125) *)

Definition empty_marks : Marks := mkMarks ∅ ∅ ∅.

(** [for key in ('tx', 'true', 'false'): ln.setdefault(key, set())] *)
Definition setdefault_marks (ln : LineRecord) : Marks :=
  default empty_marks (ln_marks ln).

(** The run sets of a line record; an absent key reads as the empty set. *)
Definition line_hit (ln : LineRecord) : gset Run := hit_runs (setdefault_marks ln).
Definition line_true (ln : LineRecord) : gset Run := true_runs (setdefault_marks ln).
Definition line_false (ln : LineRecord) : gset Run := false_runs (setdefault_marks ln).

Definition with_marks (mk : Marks) (ln : LineRecord) : LineRecord :=
  mkLine (ln_pc ln) (ln_jump ln) (Some mk).

(** [ln['tx'].add(tx)] *)
Definition add_hit (r : Run) (mk : Marks) : Marks :=
  mkMarks ({[r]} ∪ hit_runs mk) (true_runs mk) (false_runs mk).

(** [ln[key].add(tx)] for [key] in ['true'], ['false'] *)
Definition add_outcome (taken : bool) (r : Run) (mk : Marks) : Marks :=
  if taken
  then mkMarks (hit_runs mk) ({[r]} ∪ true_runs mk) (false_runs mk)
  else mkMarks (hit_runs mk) (true_runs mk) ({[r]} ∪ false_runs mk).

(** The three line mutations of the recorder, after the [setdefault] loop:
    [ln['tx'].add(tx)] (line 112), nothing more (line 119), and
    [ln[key].add(tx)] (line 122). *)
Definition mark_hit (r : Run) (ln : LineRecord) : LineRecord :=
  with_marks (add_hit r (setdefault_marks ln)) ln.

Definition touch (ln : LineRecord) : LineRecord :=
  with_marks (setdefault_marks ln) ln.

Definition mark_outcome (taken : bool) (r : Run) (ln : LineRecord) : LineRecord :=
  with_marks (add_outcome taken r (setdefault_marks ln)) ln.

(** [fn['fn'].setdefault('tx', set()).add(tx)] *)
Definition add_fn_tx (r : Run) (m : FnMaps) : FnMaps :=
  mkFn (fn_pc m) ({[r]} ∪ fn_tx m) (line m) (total m).

(** The line of index [l] of [maps['line']] now holds [ln]. *)
Definition set_line (l : nat) (ln : LineRecord) (m : FnMaps) : FnMaps :=
  mkFn (fn_pc m) (fn_tx m) (<[l := ln]> (line m)) (total m).

(** [pc == i['jump']] *)
Definition jump_is (p : Z) (ln : LineRecord) : Prop := ln_jump ln = Some p.

#[global] Instance jump_is_dec p ln : Decision (jump_is p ln).
Proof. unfold jump_is. apply _. Defined.

(** The body of the [try] block once the function [m] is found (lines
    106-122).  [next] is [tx.trace[i+1]] when that index exists; [list_find]
    is [next(...)] over a generator, [None] its [StopIteration]. *)
Definition record_in_fn (r : Run) (t : Instr) (next : option Instr)
    (m : FnMaps) : result FnMaps :=
  let m := add_fn_tx r m in
  if bool_decide (op t ≠ "JUMPI"%string) then
    match list_find (fun ln => pc t ∈ ln_pc ln) (line m) with
    | None => Ok m
    | Some (l, ln) => Ok (set_line l (mark_hit r ln) m)
    end
  else
    match list_find (jump_is (pc t)) (line m) with
    | None => Ok m
    | Some (l, ln) =>
        if bool_decide (r ∉ line_hit ln) then Ok (set_line l (touch ln) m)
        else
          match next with
          | None => Raise IndexError
          | Some t' =>
              let taken := negb (bool_decide (pc t' = pc t + 1)) in
              Ok (set_line l (mark_outcome taken r ln) m)
          end
    end.

Section Recorder.

(** [get_build(name)['coverageMap']]: the build-artifact loader, an external
    collaborator. *)
Variable get_build : string -> gmap string (list (string * FnMaps)).

(** Lines 99-101: the coverage map of a contract is loaded on first use. *)
Definition load (name : string) (cm : CoverageMap) : CoverageMap :=
  match cm !! name with
  | Some _ => cm
  | None => <[name := get_build name]> cm
  end.

(** The body of the loop over [i] (lines 93-125) for the step [t] of the
    transaction [r]. *)
Definition record_instr (r : Run) (t : Instr) (next : option Instr)
    (cm : CoverageMap) : result CoverageMap :=
  if bool_decide (contractName t = EmptyString ∨ source t = EmptyString) then Ok cm
  else
    let cm := load (contractName t) cm in
    match cm !! contractName t with
    | None => Raise KeyError
    | Some c =>
        match c !! source t with
        | None => Raise KeyError
        | Some fns =>
            match list_find (fun kv => pc t ∈ fn_pc kv.2) fns with
            | None => Ok cm
            | Some (k, (fname, m)) =>
                m' ← record_in_fn r t next m;
                Ok (<[contractName t := <[source t := <[k := (fname, m')]> fns]> c]> cm)
            end
        end
    end.

(** [for i in range(len(tx.trace))]: the step at index [i]. *)
Definition record_at (tx : Tx) (i : nat) (cm : CoverageMap) : result CoverageMap :=
  match trace tx !! i with
  | Some t => record_instr (tx_id tx) t (trace tx !! S i) cm
  | None => Raise IndexError
  end.

(** Lines 90-125 for one transaction. *)
Definition record_tx (tx : Tx) (cm : CoverageMap) : result CoverageMap :=
  if receiver tx then foldM (record_at tx) (seq 0 (length (trace tx))) cm
  else Ok cm.

(** Lines 87-125: [coverage_map = {}], then every transaction of [history]. *)
Definition record_history (history : list Tx) : result CoverageMap :=
  foldM record_tx history ∅.

End Recorder.

(** ** Coverage evaluator (lines 127-163) *)

(** Truthiness of a raw [ln['jump']]: absent and [0] are falsy. *)
Definition truthy_pc (j : option Z) : bool :=
  match j with
  | Some p => negb (p =? 0)
  | None => false
  end.

(** [ln['jump']] after the counting loop: still the loader's value, or the
    list [[len(ln['true']), len(ln['false'])]]. *)
Inductive JumpVal : Type :=
| JRaw (j : option Z)
| JCounts (t f : nat).

(** A line after the counting loop: [ln['jump']] and [ln['count']]. *)
Record Counted : Type := mkCounted {
  c_jump : JumpVal;
  c_count : nat
}.

(** Lines 132-138. *)
Definition count_line (ln : LineRecord) : Counted :=
  match ln_marks ln with
  | None => mkCounted (JRaw (ln_jump ln)) 0
  | Some mk =>
      mkCounted
        (if truthy_pc (ln_jump ln)
         then JCounts (size (true_runs mk)) (size (false_runs mk))
         else JRaw (ln_jump ln))
        (size (hit_runs mk))
  end.

(** [coverage = {'line': set(), 'true': set(), 'false': set()}] *)
Record Coverage : Type := mkCov {
  cov_line : gset nat;
  cov_true : gset nat;
  cov_false : gset nat
}.

Definition jump_truthy (j : JumpVal) : bool :=
  match j with
  | JRaw o => truthy_pc o
  | JCounts _ _ => true
  end.

(** [False not in i['jump']]: [False == 0], so neither count is zero; an
    integer is not iterable. *)
Definition no_False_in (j : JumpVal) : result bool :=
  match j with
  | JRaw _ => Raise TypeError
  | JCounts t f => Ok (negb (t =? 0)%nat && negb (f =? 0)%nat)
  end.

(** The body of the scoring loop (lines 146-157) for the line of index [c]. *)
Definition score_line (c : nat) (cl : Counted) (acc : Z * Coverage)
    : result (Z * Coverage) :=
  let '(count, cov) := acc in
  if (c_count cl =? 0)%nat then Ok acc
  else
    full ← (if negb (jump_truthy (c_jump cl)) then Ok true
            else no_False_in (c_jump cl));
    if (full : bool) then
      Ok (count + (if jump_truthy (c_jump cl) then 2 else 1),
          mkCov ({[c]} ∪ cov_line cov) (cov_true cov) (cov_false cov))
    else
      match c_jump cl with
      | JRaw _ => Raise TypeError
      | JCounts t f =>
          let '(count, cov) :=
            if (t =? 0)%nat then (count, cov)
            else (count + 1,
                  mkCov (cov_line cov) ({[c]} ∪ cov_true cov) (cov_false cov)) in
          Ok (if (f =? 0)%nat then (count, cov)
              else (count + 1,
                    mkCov (cov_line cov) (cov_true cov) ({[c]} ∪ cov_false cov)))
      end.

(** [for c, i in enumerate(maps['line'])], from the index [c]. *)
Fixpoint score_lines (c : nat) (ls : list Counted) (acc : Z * Coverage)
    : result (Z * Coverage) :=
  match ls with
  | [] => Ok acc
  | cl :: rest => acc' ← score_line c cl acc; score_lines (S c) rest acc'
  end.

(** The integer nearest to [n / d] for a positive [d], a tie going to the
    even one. *)
Definition div_half_even (n d : Z) : Z :=
  let q := n / d in
  let r := n mod d in
  if 2 * r <? d then q
  else if d <? 2 * r then q + 1
  else if Z.even q then q else q + 1.

(** The binary exponent [e] of the float nearest to [n / d], for positive
    [n] and [d]: the one with [2^52 <= (n / d) / 2^e < 2^53]. *)
Definition float_exponent (n d : Z) : Z :=
  let k := Z.log2 n - Z.log2 d in
  let reached := if 0 <=? k then d * 2 ^ k <=? n else d <=? n * 2 ^ (- k) in
  (if reached then k else k - 1) - 52.

(** [n / d] on two positive integers: the float nearest to the quotient,
    as its 53-bit significand [m] and exponent [e] (the float is
    [m * 2^e]), a tie going to the even significand.  The exponent is not
    bounded: a quotient below the smallest normal float rounds to 0
    hundredths here as it does there, and one above the largest float would
    need a score above 10^308. *)
Definition float_div (n d : Z) : Z * Z :=
  let e := float_exponent n d in
  (if 0 <=? e then div_half_even n (d * 2 ^ e)
   else div_half_even (n * 2 ^ (- e)) d, e).

(** [round(x, 2)] on the float [m * 2^e], in hundredths: the exact value of
    the float rounded to two decimals, a tie going to the even one. *)
Definition float_round2 (x : Z * Z) : Z :=
  let (m, e) := x in
  if 0 <=? e then 100 * m * 2 ^ e else div_half_even (100 * m) (2 ^ (- e)).

(** [round(count / total, 2)], in hundredths: the float quotient of the two
    integers, then rounded.  So [round2 1 40] is 3 (the float nearest to
    0.025 lies above it) and [round2 199 200] is 99 (the float nearest to
    0.995 lies below it), while [round2 1 8] is 12 (0.125 is a float, and
    the tie goes to the even hundredth). *)
Definition round2 (count total : Z) : Z :=
  if count =? 0 then 0
  else Z.sgn count * Z.sgn total
       * float_round2 (float_div (Z.abs count) (Z.abs total)).

(** The entry [coverage_eval[contract][source][fn_name]]; [pct] is kept in
    hundredths ([67] is [0.67]). *)
Inductive FnReport : Type :=
| PctOnly (hundredths : Z)
| Detail (cov : Coverage) (hundredths : Z).

(** [{'pct': 0}] *)
Definition pct_zero : FnReport := PctOnly 0.
(** [{'pct': 1}] *)
Definition pct_one : FnReport := PctOnly 100.

(** The accumulated score and covered sets of a function (lines 143-157). *)
Definition score (m : FnMaps) : result (Z * Coverage) :=
  score_lines 0 (count_line <$> line m) (0, mkCov ∅ ∅ ∅).

(** Lines 128-163 for one function. *)
Definition evaluate_fn (m : FnMaps) : result FnReport :=
  if bool_decide (fn_tx m = ∅) then Ok pct_zero
  else
    let counted := count_line <$> line m in
    if forallb (fun cl => (c_count cl =? 0)%nat) counted then Ok pct_zero
    else
      acc ← score_lines 0 counted (0, mkCov ∅ ∅ ∅);
      let '(count, cov) := acc in
      if total m =? 0 then Raise ZeroDivisionError
      else if count =? total m then Ok pct_one
      else Ok (Detail cov (round2 count (total m))).

(** A loop over a list whose body may raise, collecting the results. *)
Fixpoint forM {A B} (f : A -> result B) (xs : list A) : result (list B) :=
  match xs with
  | [] => Ok []
  | x :: xs' => y ← f x; ys ← forM f xs'; Ok (y :: ys)
  end.

(** The same over the items of a dict. *)
Definition dictM {A B} (f : A -> result B) (m : gmap string A)
    : result (gmap string B) :=
  kvs ← forM (fun kv => v ← f kv.2; Ok (kv.1, v)) (map_to_list m);
  Ok (list_to_map kvs).

(** Line 127: every function of every source of every loaded contract. *)
Definition evaluate (cm : CoverageMap)
    : result (gmap string (gmap string (list (string * FnReport)))) :=
  dictM (dictM (forM (fun kv => rep ← evaluate_fn kv.2; Ok (kv.1, rep)))) cm.

(** The recorder followed by the evaluator. *)
Definition coverage (get_build : string -> gmap string (list (string * FnMaps)))
    (history : list Tx)
    : result (gmap string (gmap string (list (string * FnReport)))) :=
  cm ← record_history get_build history; evaluate cm.

(** ** Predicates used in the statements *)

(** An index is reported in one of the three covered sets. *)
Definition in_cov (i : nat) (cov : Coverage) : Prop :=
  i ∈ cov_line cov ∨ i ∈ cov_true cov ∨ i ∈ cov_false cov.

(** A branching line that was hit with neither outcome observed. *)
Definition hit_without_outcome (ln : LineRecord) : Prop :=
  truthy_pc (ln_jump ln) = true ∧
  line_hit ln ≠ ∅ ∧ line_true ln = ∅ ∧ line_false ln = ∅.

(** Every run that hit a line of the function is in the function's own run
    set. *)
Definition hit_in_fn (m : FnMaps) : Prop :=
  Forall (fun ln => line_hit ln ⊆ fn_tx m) (line m).

(** Every branch outcome recorded on the line belongs to a run that hit it. *)
Definition outcome_in_hit (ln : LineRecord) : Prop :=
  forall r, r ∈ line_true ln ∨ r ∈ line_false ln -> r ∈ line_hit ln.

Definition fn_outcome_in_hit (m : FnMaps) : Prop :=
  Forall outcome_in_hit (line m).

(** A property of every function of a contract, of a coverage map. *)
Definition contract_Forall (P : FnMaps -> Prop)
    (c : gmap string (list (string * FnMaps))) : Prop :=
  map_Forall (fun _ fns => Forall (fun kv : string * FnMaps => P kv.2) fns) c.

Definition cm_Forall (P : FnMaps -> Prop)
    (cm : gmap string (gmap string (list (string * FnMaps)))) : Prop :=
  map_Forall (fun _ c => contract_Forall P c) cm.

(** ** Bytecode content hash (lines 165-174) *)

(** [s[:-n]] for [n > 0]: all but the last [n] characters, nothing when the
    string is shorter. *)
Definition drop_last (n : nat) (s : string) : string :=
  substring 0 (String.length s - n) s.

Section Hash.

(** [sha1(s.encode()).hexdigest()], from [hashlib]. *)
Variable sha1_hexdigest : string -> string.

(** [sha1(bytecode[:-68].encode()).hexdigest()]: the hash of the bytecode
    without its final metadata. *)
Definition bytecode_hash (bytecode : string) : string :=
  sha1_hexdigest (drop_last 68 bytecode).

End Hash.

(** ** A step as a decision followed by an in-place update

    The recorder never changes the skeleton of the coverage map: a step
    first decides what to mark (or raises) and then marks it in place.  The
    definitions below make the two halves explicit; they are related to
    [record_in_fn] and [record_instr] by [record_in_fn_plan] and
    [record_instr_plan]. *)

(** Adding runs to the three sets of a line. *)
Definition add_marks (d : Marks) (ln : LineRecord) : LineRecord :=
  mkLine (ln_pc ln) (ln_jump ln)
         (Some (mkMarks (hit_runs d ∪ line_hit ln)
                        (true_runs d ∪ line_true ln)
                        (false_runs d ∪ line_false ln))).

Definition update_line (l : nat) (f : LineRecord -> LineRecord) (m : FnMaps) : FnMaps :=
  mkFn (fn_pc m) (fn_tx m) (alter f l (line m)) (total m).

Definition update_fn (name src : string) (k : nat) (f : FnMaps -> FnMaps)
    (cm : gmap string (gmap string (list (string * FnMaps))))
    : gmap string (gmap string (list (string * FnMaps))) :=
  alter (alter (alter (prod_map id f) k) src) name cm.

(** What a step does to the lines of the function it found. *)
Inductive LineAct : Type :=
| NoLine
| Hit (l : nat)
| Touch (l : nat)
| Outcome (l : nat) (taken : bool).

Definition marks_of (r : Run) (a : LineAct) : Marks :=
  match a with
  | NoLine | Touch _ => empty_marks
  | Hit _ => mkMarks {[r]} ∅ ∅
  | Outcome _ true => mkMarks ∅ {[r]} ∅
  | Outcome _ false => mkMarks ∅ ∅ {[r]}
  end.

Definition apply_line_act (r : Run) (a : LineAct) (m : FnMaps) : FnMaps :=
  add_fn_tx r
    match a with
    | NoLine => m
    | Hit l | Touch l | Outcome l _ => update_line l (add_marks (marks_of r a)) m
    end.

Definition plan_in_fn (r : Run) (t : Instr) (next : option Instr) (m : FnMaps)
    : result LineAct :=
  if bool_decide (op t ≠ "JUMPI"%string) then
    match list_find (fun ln => pc t ∈ ln_pc ln) (line m) with
    | None => Ok NoLine
    | Some (l, _) => Ok (Hit l)
    end
  else
    match list_find (jump_is (pc t)) (line m) with
    | None => Ok NoLine
    | Some (l, ln) =>
        if bool_decide (r ∉ line_hit ln) then Ok (Touch l)
        else
          match next with
          | None => Raise IndexError
          | Some t' => Ok (Outcome l (negb (bool_decide (pc t' = pc t + 1))))
          end
    end.

(** What a step does to the coverage map. *)
Inductive Act : Type :=
| Skip
| Loaded (name : string)
| InFn (name src : string) (k : nat) (a : LineAct).

Section Plan.

Variable get_build : string -> gmap string (list (string * FnMaps)).

(** [coverage_map[name]] as the step sees it after lines 99-101. *)
Definition contract_view (name : string)
    (cm : gmap string (gmap string (list (string * FnMaps))))
    : gmap string (list (string * FnMaps)) :=
  default (get_build name) (cm !! name).

Definition apply_act (r : Run) (a : Act)
    (cm : gmap string (gmap string (list (string * FnMaps))))
    : gmap string (gmap string (list (string * FnMaps))) :=
  match a with
  | Skip => cm
  | Loaded name => load get_build name cm
  | InFn name src k a =>
      update_fn name src k (apply_line_act r a) (load get_build name cm)
  end.

Definition plan (r : Run) (t : Instr) (next : option Instr)
    (cm : gmap string (gmap string (list (string * FnMaps)))) : result Act :=
  if bool_decide (contractName t = EmptyString ∨ source t = EmptyString) then Ok Skip
  else
    match contract_view (contractName t) cm !! source t with
    | None => Raise KeyError
    | Some fns =>
        match list_find (fun kv : string * FnMaps => pc t ∈ fn_pc kv.2) fns with
        | None => Ok (Loaded (contractName t))
        | Some (k, (_, m)) =>
            a ← plan_in_fn r t next m;
            Ok (InFn (contractName t) (source t) k a)
        end
    end.

End Plan.

(** A run identifier stands for one transaction: two items of the history
    with the same identifier are the same transaction. *)
Definition runs_identify (history : list Tx) : Prop :=
  forall t1 t2, t1 ∈ history -> t2 ∈ history -> tx_id t1 = tx_id t2 -> t1 = t2.

(** Two state transformers commute, up to which exception is raised when
    one of them fails. *)
Definition commute_mod_exc {S} (f g : S -> result S) : Prop :=
  forall s, succeeded (s1 ← f s; g s1) = succeeded (s1 ← g s; f s1).

(** ** When recording cannot fail *)

Section Attributable.

Variable get_build : string -> gmap string (list (string * FnMaps)).

(** Every loaded contract still has the source files the loader gave it. *)
Definition sources_kept
    (cm : gmap string (gmap string (list (string * FnMaps)))) : Prop :=
  map_Forall (fun name c => dom c = dom (get_build name)) cm.

(** The step [t], followed by [next], has a source file the contract's map
    knows, and is followed by another step when it is a conditional jump. *)
Definition instr_attributable (t : Instr) (next : option Instr) : Prop :=
  (contractName t ≠ EmptyString -> source t ≠ EmptyString ->
   is_Some (get_build (contractName t) !! source t)) ∧
  (op t = "JUMPI"%string -> is_Some next).

Definition tx_attributable (tx : Tx) : Prop :=
  forall i t, trace tx !! i = Some t -> instr_attributable t (trace tx !! S i).

End Attributable.

(** ** Concrete inputs *)

(** A function of two lines: line 0 without a jump, line 1 with the
    conditional jump at pc 200; [total] is 3. *)
Definition ex_fn : FnMaps :=
  mkFn [100; 101; 200; 201; 300] ∅
       [mkLine [100; 101] None None; mkLine [201] (Some 200) None] 3.

Definition ex_build (name : string) : gmap string (list (string * FnMaps)) :=
  {[ "a.sol"%string := [("f"%string, ex_fn)] ]}.

Definition ex_instr (p : Z) (o : string) : Instr := mkInstr p o "A" "a.sol".

(** Run 7 hits both lines and takes the jump. *)
Definition ex_tx : Tx :=
  mkTx 7 true [ex_instr 100 "PUSH1"; ex_instr 201 "PUSH1";
               ex_instr 200 "JUMPI"; ex_instr 300 "JUMPDEST"].

(** Run 9 hits both lines, falls through the jump once and takes it once. *)
Definition ex_tx_both : Tx :=
  mkTx 9 true [ex_instr 100 "PUSH1"; ex_instr 201 "PUSH1"; ex_instr 200 "JUMPI";
               ex_instr 201 "PUSH1"; ex_instr 200 "JUMPI"; ex_instr 300 "JUMPDEST"].

(** Run 11 ends on the conditional jump of a line it has hit. *)
Definition ex_tx_trailing_jumpi : Tx :=
  mkTx 11 true [ex_instr 201 "PUSH1"; ex_instr 200 "JUMPI"].

(** Run 12 executes a step of a source file the contract's map does not have. *)
Definition ex_tx_unknown_source : Tx :=
  mkTx 12 true [mkInstr 100 "PUSH1" "A" "b.sol"].

(** Run 13 executes a pc of no function, then a pc of the function that is
    on no line. *)
Definition ex_tx_unattributable : Tx :=
  mkTx 13 true [ex_instr 999 "STOP"; ex_instr 300 "JUMPDEST"].

(** Run 14 executes a pc of no function, in a source file the contract's
    map does not have. *)
Definition ex_tx_stray_unknown_source : Tx :=
  mkTx 14 true [mkInstr 999 "STOP" "A" "b.sol"].

(** Run 8 reaches the conditional jump of line 1 without having hit the
    line. *)
Definition ex_tx_jump_first : Tx :=
  mkTx 8 true [ex_instr 200 "JUMPI"; ex_instr 300 "JUMPDEST"].

(** The function after the first two steps of run 7, and after all four. *)
Definition ex_fn_mid : FnMaps :=
  mkFn [100; 101; 200; 201; 300] {[7%nat]}
       [mkLine [100; 101] None (Some (mkMarks {[7%nat]} ∅ ∅));
        mkLine [201] (Some 200) (Some (mkMarks {[7%nat]} ∅ ∅))] 3.

Definition ex_fn_recorded : FnMaps :=
  mkFn [100; 101; 200; 201; 300] {[7%nat]}
       [mkLine [100; 101] None (Some (mkMarks {[7%nat]} ∅ ∅));
        mkLine [201] (Some 200) (Some (mkMarks {[7%nat]} {[7%nat]} ∅))] 3.

(** The function after run 7 and the first step of run 8. *)
Definition ex_fn_jump_first : FnMaps :=
  mkFn [100; 101; 200; 201; 300] {[7%nat; 8%nat]}
       [mkLine [100; 101] None (Some (mkMarks {[7%nat]} ∅ ∅));
        mkLine [201] (Some 200) (Some (mkMarks {[7%nat]} {[7%nat]} ∅))] 3.

Definition ex_cm (m : FnMaps) : gmap string (gmap string (list (string * FnMaps))) :=
  {[ "A"%string := {[ "a.sol"%string := [("f"%string, m)] ]} ]}.

(** The function after run 9. *)
Definition ex_fn_both : FnMaps :=
  mkFn [100; 101; 200; 201; 300] {[9%nat]}
       [mkLine [100; 101] None (Some (mkMarks {[9%nat]} ∅ ∅));
        mkLine [201] (Some 200) (Some (mkMarks {[9%nat]} {[9%nat]} {[9%nat]}))] 3.

(** Two builds of one bytecode, with different 68-character metadata. *)
Definition ex_code : string := "608060405234801561001057600080fd5b50a165627a7a72305820".
Definition ex_meta1 : string :=
  "a1a1a1a1a1a1a1a1a1a1a1a1a1a1a1a1a1a1a1a1a1a1a1a1a1a1a1a1a1a1a1a10029".
Definition ex_meta2 : string :=
  "b2b2b2b2b2b2b2b2b2b2b2b2b2b2b2b2b2b2b2b2b2b2b2b2b2b2b2b2b2b2b2b20029".

(** ** Comparing coverage maps *)

(** The line [ln'] is the line [ln] with possibly more runs in its sets. *)
Definition line_le (ln ln' : LineRecord) : Prop :=
  ln_pc ln' = ln_pc ln ∧ ln_jump ln' = ln_jump ln ∧
  line_hit ln ⊆ line_hit ln' ∧
  line_true ln ⊆ line_true ln' ∧
  line_false ln ⊆ line_false ln'.

(** The same for a function: its pc set, [total] and the skeleton of its
    lines are kept, its run sets may have grown. *)
Definition fn_le (m m' : FnMaps) : Prop :=
  fn_pc m' = fn_pc m ∧ total m' = total m ∧
  fn_tx m ⊆ fn_tx m' ∧
  Forall2 line_le (line m) (line m').

(** The run [r] is in the same sets of [ln'] as of [ln]. *)
Definition line_same_for (r : Run) (ln ln' : LineRecord) : Prop :=
  (r ∈ line_hit ln' <-> r ∈ line_hit ln) ∧
  (r ∈ line_true ln' <-> r ∈ line_true ln) ∧
  (r ∈ line_false ln' <-> r ∈ line_false ln).

Definition fn_same_for (r : Run) (m m' : FnMaps) : Prop :=
  (r ∈ fn_tx m' <-> r ∈ fn_tx m) ∧
  Forall2 (line_same_for r) (line m) (line m').

(** Two contract maps have the same source files and, file by file, the
    same function names in the same order, with related functions. *)
Definition source_rel (R : FnMaps -> FnMaps -> Prop)
    (fns fns' : list (string * FnMaps)) : Prop :=
  Forall2 (fun kv kv' : string * FnMaps => kv'.1 = kv.1 ∧ R kv.2 kv'.2) fns fns'.

Definition contract_rel (R : FnMaps -> FnMaps -> Prop)
    (c c' : gmap string (list (string * FnMaps))) : Prop :=
  forall src, option_Forall2 (source_rel R) (c !! src) (c' !! src).

(** ** The contracts a history names *)

(** The contract a step makes the recorder load (lines 97-101). *)
Definition instr_contract (t : Instr) : gset string :=
  if bool_decide (contractName t = EmptyString ∨ source t = EmptyString)
  then ∅ else {[contractName t]}.

Definition tx_contracts (tx : Tx) : gset string :=
  if receiver tx then ⋃ (instr_contract <$> trace tx) else ∅.

Definition history_contracts (history : list Tx) : gset string :=
  ⋃ (tx_contracts <$> history).

(** The loop over a trace, as one pass in which each step sees its
    successor. *)
Fixpoint record_steps
    (get_build : string -> gmap string (list (string * FnMaps)))
    (r : Run) (tr : list Instr)
    (cm : gmap string (gmap string (list (string * FnMaps))))
    : result (gmap string (gmap string (list (string * FnMaps)))) :=
  match tr with
  | [] => Ok cm
  | t :: rest =>
      cm' ← record_instr get_build r t (head rest) cm;
      record_steps get_build r rest cm'
  end.

(** ** What a line contributes to the score *)

(** The evaluator's test for a line with a conditional jump: [if ln['jump']]. *)
Definition branching (ln : LineRecord) : bool := truthy_pc (ln_jump ln).

(** The state of a line when the evaluator reads it: never hit, hit with no
    outcome of its jump observed, with only the true or only the false
    outcome, or fully covered (a line without a jump that was hit, or a line
    with a jump whose two outcomes were observed). *)
Inductive LineCover : Type :=
| Unhit
| NoOutcome
| OnlyTrue
| OnlyFalse
| Full.

Definition line_cover (ln : LineRecord) : LineCover :=
  if bool_decide (line_hit ln = ∅) then Unhit
  else if branching ln then
    match bool_decide (line_true ln = ∅), bool_decide (line_false ln = ∅) with
    | true, true => NoOutcome
    | false, true => OnlyTrue
    | true, false => OnlyFalse
    | false, false => Full
    end
  else Full.

(** The weight of a line: 2 with a conditional jump, 1 without. *)
Definition line_weight (ln : LineRecord) : Z := if branching ln then 2 else 1.

Definition line_units (ln : LineRecord) : Z :=
  match line_cover ln with
  | Unhit | NoOutcome => 0
  | OnlyTrue | OnlyFalse => 1
  | Full => line_weight ln
  end.

Definition weight_sum (ls : list LineRecord) : Z :=
  foldr (fun ln acc => line_weight ln + acc) 0 ls.

Definition units_sum (ls : list LineRecord) : Z :=
  foldr (fun ln acc => line_units ln + acc) 0 ls.

(** The set of the report a line in the given state is listed in. *)
Definition cov_of (s : LineCover) (cov : Coverage) : gset nat :=
  match s with
  | Full => cov_line cov
  | OnlyTrue => cov_true cov
  | OnlyFalse => cov_false cov
  | Unhit | NoOutcome => ∅
  end.

Definition listed (s : LineCover) : Prop := s = Full ∨ s = OnlyTrue ∨ s = OnlyFalse.

(** [coverage[key].add(c)] for the key of the state, if it has one. *)
Definition add_cover (c : nat) (s : LineCover) (cov : Coverage) : Coverage :=
  match s with
  | Full => mkCov ({[c]} ∪ cov_line cov) (cov_true cov) (cov_false cov)
  | OnlyTrue => mkCov (cov_line cov) ({[c]} ∪ cov_true cov) (cov_false cov)
  | OnlyFalse => mkCov (cov_line cov) (cov_true cov) ({[c]} ∪ cov_false cov)
  | Unhit | NoOutcome => cov
  end.

(** The [pct] of a report entry, in hundredths. *)
Definition report_pct (rep : FnReport) : Z :=
  match rep with
  | PctOnly h => h
  | Detail _ h => h
  end.

(** ** The range argument (lines 44-57) *)

(** A Python [slice] object; [None] fields are absent bounds. *)
Record PySlice : Type := mkSlice {
  slice_start : option Z;
  slice_stop : option Z;
  slice_step : option Z
}.

(** How the range handling ends: with the slice [idx], or in one of the two
    calls of [sys.exit]. *)
Inductive RangeOutcome : Type :=
| Selected (idx : PySlice)
| ExitInvalidRange
| ExitMultipleFiles.

(** The character [':']. *)
Definition colon : Stdlib.Strings.Ascii.ascii :=
  Stdlib.Strings.Ascii.Ascii false true false true true true false false.

(** [s.split(sep)] for a separator of one character: the pieces between
    its occurrences, empty pieces included. *)
Fixpoint split_on (sep : Stdlib.Strings.Ascii.ascii) (s : string) : list string :=
  match s with
  | EmptyString => [EmptyString]
  | String c s' =>
      if Stdlib.Strings.Ascii.eqb c sep then EmptyString :: split_on sep s'
      else
        match split_on sep s' with
        | p :: ps => String c p :: ps
        | [] => [String c EmptyString]
        end
  end.

(** The number of occurrences of a character; [sep in s] is a positive
    count. *)
Fixpoint count_char (sep : Stdlib.Strings.Ascii.ascii) (s : string) : nat :=
  match s with
  | EmptyString => 0
  | String c s' => (if Stdlib.Strings.Ascii.eqb c sep then 1 else 0) + count_char sep s'
  end.

Definition contains_char (sep : Stdlib.Strings.Ascii.ascii) (s : string) : bool :=
  negb (count_char sep s =? 0)%nat.

(** [slice] called with the list as its arguments: one to three of them,
    [TypeError] otherwise. *)
Definition slice_of_args (args : list Z) : option PySlice :=
  match args with
  | [a] => Some (mkSlice None (Some a) None)
  | [a; b] => Some (mkSlice (Some a) (Some b) None)
  | [a; b; c] => Some (mkSlice (Some a) (Some b) (Some c))
  | _ => None
  end.

Section Range.

(** [int(s)], [None] when it raises [ValueError]. *)
Variable py_int : string -> option Z.

(** [[int(i)-1 for i in parts]], [None] when a part is refused. *)
Fixpoint ints_minus_one (parts : list string) : option (list Z) :=
  match parts with
  | [] => Some []
  | p :: ps =>
      match py_int p with
      | None => None
      | Some n =>
          match ints_minus_one ps with
          | None => None
          | Some ns => Some ((n - 1) :: ns)
          end
      end
  end.

(** Lines 45-57, from the number of test files and [args['<range>']]
    ([None] when the argument is not given); any exception in the [try]
    block ends in the first [sys.exit]. *)
Definition parse_range (n_files : nat) (range : option string) : RangeOutcome :=
  match range with
  | Some (String c s) =>
      let idx := String c s in
      if (n_files =? 1)%nat then
        if contains_char colon idx then
          match ints_minus_one (split_on colon idx) with
          | None => ExitInvalidRange
          | Some args =>
              match slice_of_args args with
              | None => ExitInvalidRange
              | Some sl => Selected sl
              end
          end
        else
          match py_int idx with
          | None => ExitInvalidRange
          | Some n => Selected (mkSlice (Some (n - 1)) (Some n) None)
          end
      else ExitMultipleFiles
  | _ => Selected (mkSlice (Some 0) None None)
  end.

End Range.

(** ** The colour of a percentage (lines 18-22 and 195) *)

(** [COVERAGE_COLORS]; the thresholds and [pct] are taken as exact
    rationals.  Comparing floats gives the same answers: 0.5 and 1 are
    floats, and the float nearest to 0.85 lies below it with no float in
    between. *)
Definition COVERAGE_COLORS : list (Qcanon.Qc * string) :=
  [(Qcanon.Q2Qc (QArith_base.Qmake 1 2), "bright red"%string);
   (Qcanon.Q2Qc (QArith_base.Qmake 85 100), "bright yellow"%string);
   (Qcanon.Q2Qc (QArith_base.Qmake 1 1), "bright green"%string)].

(** [next(i[1] for i in COVERAGE_COLORS if pct<=i[0])]; [None] is the
    [StopIteration] of an exhausted generator. *)
Definition coverage_color (pct : Qcanon.Qc) : option string :=
  (fun found : nat * (Qcanon.Qc * string) => found.2.2)
    <$> list_find (fun i : Qcanon.Qc * string => Qcanon.Qcle pct i.1) COVERAGE_COLORS.

(** The slice a range stands for, from the integers between its colons:
    [n] alone is the slice from [n-1] to [n]; with colons each integer is
    lowered by one. *)
Definition range_slice (ns : list Z) : option PySlice :=
  match ns with
  | [n] => Some (mkSlice (Some (n - 1)) (Some n) None)
  | [a; b] => Some (mkSlice (Some (a - 1)) (Some (b - 1)) None)
  | [a; b; c] => Some (mkSlice (Some (a - 1)) (Some (b - 1)) (Some (c - 1)))
  | _ => None
  end.

(** ** More concrete inputs *)

(** The function of [ex_cm] after run 7 and then run 9. *)
Definition ex_fn_two : FnMaps :=
  mkFn [100; 101; 200; 201; 300] {[7%nat; 9%nat]}
       [mkLine [100; 101] None (Some (mkMarks {[7%nat; 9%nat]} ∅ ∅));
        mkLine [201] (Some 200)
               (Some (mkMarks {[7%nat; 9%nat]} {[7%nat; 9%nat]} {[9%nat]}))] 3.

(** A transaction without a receiver. *)
Definition ex_tx_no_receiver : Tx := mkTx 5 false [ex_instr 100 "PUSH1"].

(** A stand-in for [int] on the range arguments used below. *)
Definition ex_int (s : string) : option Z :=
  if String.eqb s "1" then Some 1
  else if String.eqb s "4" then Some 4
  else None.

(** * Properties of the recorder *)

(** ** Loops *)

Lemma foldM_invariant {A S} (I : S -> Prop) (body : A -> S -> result S) xs :
  (forall x s s', I s -> body x s = Ok s' -> I s') ->
  forall s s', I s -> foldM body xs s = Ok s' -> I s'.
Proof.
  intros Hbody. induction xs as [|x xs IH]; intros s s' Hs; simpl.
  - by intros [= <-].
  - destruct (body x s) as [s1|e] eqn:E; simpl; [|done].
    apply IH. by eapply Hbody.
Qed.

(** ** The run sets after each line mutation *)

Lemma line_sets_mark_hit r ln :
  line_hit (mark_hit r ln) = {[r]} ∪ line_hit ln ∧
  line_true (mark_hit r ln) = line_true ln ∧
  line_false (mark_hit r ln) = line_false ln.
Proof. done. Qed.

Lemma line_sets_mark_outcome taken r ln :
  line_hit (mark_outcome taken r ln) = line_hit ln ∧
  line_true (mark_outcome taken r ln)
    = (if taken then {[r]} ∪ line_true ln else line_true ln) ∧
  line_false (mark_outcome taken r ln)
    = (if taken then line_false ln else {[r]} ∪ line_false ln).
Proof. by destruct taken. Qed.

(** ** Invariants of the recorder *)

Lemma outcome_in_hit_mark_hit r ln : outcome_in_hit ln -> outcome_in_hit (mark_hit r ln).
Proof. unfold outcome_in_hit. intros H r'. specialize (H r'). set_solver. Qed.

Lemma outcome_in_hit_mark_outcome taken r ln :
  r ∈ line_hit ln -> outcome_in_hit ln -> outcome_in_hit (mark_outcome taken r ln).
Proof.
  unfold outcome_in_hit. intros Hr H r'. specialize (H r').
  destruct (line_sets_mark_outcome taken r ln) as (-> & -> & ->).
  destruct taken; set_solver.
Qed.

Lemma record_in_fn_outcome_in_hit r t next m m' :
  fn_outcome_in_hit m -> record_in_fn r t next m = Ok m' -> fn_outcome_in_hit m'.
Proof.
  unfold fn_outcome_in_hit, record_in_fn. intros Hinv. simpl.
  case_bool_decide as Hop.
  - destruct (list_find _ _) as [[l ln]|] eqn:Hfind; intros [= <-]; simpl; [|done].
    apply list_find_Some in Hfind as (Hl & _ & _).
    apply Forall_insert; [done|].
    apply outcome_in_hit_mark_hit. by eapply Forall_lookup_1.
  - destruct (list_find _ _) as [[l ln]|] eqn:Hfind; [|by intros [= <-]].
    apply list_find_Some in Hfind as (Hl & _ & _).
    pose proof (Forall_lookup_1 _ _ _ _ Hinv Hl) as Hln.
    case_bool_decide as Hr.
    + intros [= <-]; simpl. by apply Forall_insert.
    + destruct next as [t'|]; [|done]. intros [= <-]; simpl.
      apply Forall_insert; [done|].
      apply outcome_in_hit_mark_outcome; [|done].
      done.
Qed.

Lemma record_in_fn_hit_in_fn r t next m m' :
  hit_in_fn m -> record_in_fn r t next m = Ok m' -> hit_in_fn m'.
Proof.
  unfold hit_in_fn, record_in_fn. intros Hinv. simpl.
  assert (Forall (fun ln => line_hit ln ⊆ {[r]} ∪ fn_tx m) (line m)) as Hinv'.
  { eapply Forall_impl; [exact Hinv|]. intros ln; simpl. set_solver. }
  case_bool_decide as Hop.
  - destruct (list_find _ _) as [[l ln]|] eqn:Hfind; intros [= <-]; simpl; [|done].
    apply list_find_Some in Hfind as (Hl & _ & _).
    apply Forall_insert; [done|].
    pose proof (Forall_lookup_1 _ _ _ _ Hinv' Hl) as Hln. simpl in Hln.
    destruct (line_sets_mark_hit r ln) as (-> & _ & _). set_solver.
  - destruct (list_find _ _) as [[l ln]|] eqn:Hfind; [|by intros [= <-]].
    apply list_find_Some in Hfind as (Hl & _ & _).
    pose proof (Forall_lookup_1 _ _ _ _ Hinv' Hl) as Hln. simpl in Hln.
    case_bool_decide as Hr.
    + intros [= <-]; simpl. by apply Forall_insert.
    + destruct next as [t'|]; [|done]. intros [= <-]; simpl.
      apply Forall_insert; [done|].
      by destruct (line_sets_mark_outcome (negb (bool_decide (pc t' = pc t + 1))) r ln) as (-> & _ & _).
Qed.

Section RecorderInvariants.

Variable get_build : string -> gmap string (list (string * FnMaps)).
Variable P : FnMaps -> Prop.
Hypothesis P_build : forall name, contract_Forall P (get_build name).
Hypothesis P_record_in_fn : forall r t next m m',
  P m -> record_in_fn r t next m = Ok m' -> P m'.

Lemma load_Forall name cm : cm_Forall P cm -> cm_Forall P (load get_build name cm).
Proof.
  unfold load. intros Hcm. destruct (cm !! name); [done|].
  by apply map_Forall_insert_2.
Qed.

Lemma record_instr_Forall r t next cm cm' :
  cm_Forall P cm -> record_instr get_build r t next cm = Ok cm' -> cm_Forall P cm'.
Proof.
  unfold record_instr. intros Hcm.
  case_bool_decide; [by intros [= <-]|].
  pose proof (load_Forall (contractName t) cm Hcm) as Hload.
  destruct (load get_build (contractName t) cm !! contractName t) as [c|] eqn:Hc; [|done].
  destruct (c !! source t) as [fns|] eqn:Hfns; [|done].
  destruct (list_find _ fns) as [[k [fname m]]|] eqn:Hfind; [|by intros [= <-]].
  destruct (record_in_fn r t next m) as [m'|e] eqn:Hm'; simpl; [|done].
  intros [= <-].
  apply list_find_Some in Hfind as (Hk & _ & _).
  pose proof (map_Forall_lookup_1 _ _ _ _ Hload Hc) as HPc.
  pose proof (map_Forall_lookup_1 _ _ _ _ HPc Hfns) as HPfns. simpl in HPfns.
  apply map_Forall_insert_2; [|done].
  apply map_Forall_insert_2; [|done].
  apply Forall_insert; [done|]. simpl.
  eapply P_record_in_fn; [|exact Hm'].
  by apply (Forall_lookup_1 _ _ _ _ HPfns Hk).
Qed.

Lemma record_at_Forall tx i cm cm' :
  cm_Forall P cm -> record_at get_build tx i cm = Ok cm' -> cm_Forall P cm'.
Proof.
  unfold record_at. destruct (trace tx !! i); [|done]. apply record_instr_Forall.
Qed.

Lemma record_tx_Forall tx cm cm' :
  cm_Forall P cm -> record_tx get_build tx cm = Ok cm' -> cm_Forall P cm'.
Proof.
  unfold record_tx. destruct (receiver tx); [|by intros ? [= <-]].
  apply foldM_invariant. intros i s s'. apply record_at_Forall.
Qed.

Lemma record_history_Forall history cm :
  record_history get_build history = Ok cm -> cm_Forall P cm.
Proof.
  unfold record_history. apply foldM_invariant.
  - intros tx s s'. apply record_tx_Forall.
  - apply map_Forall_empty.
Qed.

End RecorderInvariants.

(** C5.  On every line record, a run in [true_runs] or [false_runs] is in
    [hit_runs]: every single-step of the recorder preserves this, and so it
    holds of the coverage map reached by recording any history, provided the
    loader's maps satisfy it (a freshly loaded map has no run sets). *)
Theorem outcome_runs_within_hit_runs
    (get_build : string -> gmap string (list (string * FnMaps))) :
  (forall name, contract_Forall fn_outcome_in_hit (get_build name)) ->
  (forall tx i cm cm',
     cm_Forall fn_outcome_in_hit cm ->
     record_at get_build tx i cm = Ok cm' ->
     cm_Forall fn_outcome_in_hit cm') ∧
  (forall history cm,
     record_history get_build history = Ok cm ->
     cm_Forall fn_outcome_in_hit cm).
Proof.
  intros Hbuild. split.
  - intros tx i cm cm'.
    apply record_at_Forall; [done|]. apply record_in_fn_outcome_in_hit.
  - intros history cm.
    apply record_history_Forall; [done|]. apply record_in_fn_outcome_in_hit.
Qed.

(** ** Single steps of the recorder *)

(** C1.  A conditional jump ([JUMPI]) at position [i] of a trace, whose
    owning function [m] and line [ln] (the first line with [jump] equal to
    the step's pc) are found: if the run is already in the line's hit set
    and the trace has a next step, the step is classified by that next
    step, the run being added to [false_runs] when its pc is [pc + 1] and to
    [true_runs] otherwise; if the run is not yet in the hit set, nothing is
    recorded in the line's three run sets, whether or not a next step
    exists.  In both cases no other line changes, and the run joins the
    function-level run set. *)
Theorem jumpi_outcome_classification
    (get_build : string -> gmap string (list (string * FnMaps)))
    (tx : Tx) (i : nat) (t : Instr)
    (cm : gmap string (gmap string (list (string * FnMaps))))
    (c : gmap string (list (string * FnMaps))) (fns : list (string * FnMaps))
    (k : nat) (fname : string) (m : FnMaps) (l : nat) (ln : LineRecord) :
  trace tx !! i = Some t ->
  op t = "JUMPI"%string ->
  contractName t ≠ EmptyString -> source t ≠ EmptyString ->
  load get_build (contractName t) cm !! contractName t = Some c ->
  c !! source t = Some fns ->
  list_find (fun kv : string * FnMaps => pc t ∈ fn_pc kv.2) fns = Some (k, (fname, m)) ->
  list_find (jump_is (pc t)) (line m) = Some (l, ln) ->
  let r := tx_id tx in
  let stored (mk : Marks) :=
    <[contractName t :=
        <[source t :=
            <[k := (fname,
                    set_line l (mkLine (ln_pc ln) (ln_jump ln) (Some mk))
                             (add_fn_tx r m))]> fns]> c]>
      (load get_build (contractName t) cm) in
  (r ∈ line_hit ln ->
   forall t', trace tx !! S i = Some t' ->
     record_at get_build tx i cm =
       Ok (stored (if bool_decide (pc t' = pc t + 1)
                   then mkMarks (line_hit ln) (line_true ln) ({[r]} ∪ line_false ln)
                   else mkMarks (line_hit ln) ({[r]} ∪ line_true ln) (line_false ln))))
  ∧ (r ∉ line_hit ln ->
     record_at get_build tx i cm =
       Ok (stored (mkMarks (line_hit ln) (line_true ln) (line_false ln)))).
Proof.
  intros Ht Hop Hname Hsrc Hc Hfns Hfn Hln r stored.
  assert (record_at get_build tx i cm =
          (m' ← record_in_fn r t (trace tx !! S i) m;
           Ok (<[contractName t := <[source t := <[k := (fname, m')]> fns]> c]>
                 (load get_build (contractName t) cm)))) as ->.
  { unfold record_at, record_instr. rewrite Ht.
    rewrite bool_decide_eq_false_2 by tauto.
    by rewrite Hc, Hfns, Hfn. }
  unfold record_in_fn. rewrite bool_decide_eq_false_2 by (by intros []).
  simpl. rewrite Hln. split.
  - intros Hr t' Ht'. rewrite bool_decide_eq_false_2 by (by intros []).
    rewrite Ht'. simpl. unfold stored. by case_bool_decide.
  - intros Hr. rewrite bool_decide_eq_true_2 by done.
    unfold stored, touch, with_marks, line_hit, line_true, line_false.
    by destruct (setdefault_marks ln).
Qed.

(** C1, counterexample.  A conditional jump on a line the run has not hit
    does record something: run 8 reaches the jump of line 1 first, and the
    step adds it to the run set of the function (line 106 comes before the
    test of line 118), the line's own sets staying as they were. *)
Lemma jumpi_before_hit_records_function_run :
  Forall (fun ln => 8%nat ∉ line_hit ln) (line ex_fn_recorded) ∧
  record_at ex_build ex_tx_jump_first 0 (ex_cm ex_fn_recorded)
    = Ok (ex_cm ex_fn_jump_first) ∧
  record_at ex_build ex_tx_jump_first 0 (ex_cm ex_fn_recorded)
    ≠ Ok (ex_cm ex_fn_recorded) ∧
  fn_tx ex_fn_recorded = {[7%nat]} ∧
  fn_tx ex_fn_jump_first = {[7%nat; 8%nat]}.
Proof.
  assert (record_at ex_build ex_tx_jump_first 0 (ex_cm ex_fn_recorded)
          = Ok (ex_cm ex_fn_jump_first)) as Hrec by (vm_compute; reflexivity).
  split; [repeat constructor; unfold line_hit; simpl; set_solver|].
  split; [exact Hrec|].
  split; [|split; reflexivity].
  rewrite Hrec. intros Heq. vm_compute in Heq. discriminate Heq.
Qed.


(** The skip where the guard holds: a step of a known source file whose pc
    is in no function's pc set, or is in a function's pc set but on no line
    (no line's pc set has it when the opcode is not [JUMPI], no line's
    [jump] equals it when it is), is skipped without an exception: the step
    returns normally and the loop goes on with the rest of the trace, from
    the coverage map as it was after the load in the first case, and with
    only the function-level run set extended in the second, every line
    record untouched. *)
Theorem unattributable_instruction_skipped
    (get_build : string -> gmap string (list (string * FnMaps)))
    (tx : Tx) (i : nat) (t : Instr)
    (cm : gmap string (gmap string (list (string * FnMaps))))
    (c : gmap string (list (string * FnMaps))) (fns : list (string * FnMaps)) :
  trace tx !! i = Some t ->
  contractName t ≠ EmptyString -> source t ≠ EmptyString ->
  load get_build (contractName t) cm !! contractName t = Some c ->
  c !! source t = Some fns ->
  let skipped_to cm' :=
    record_at get_build tx i cm = Ok cm' ∧
    forall rest, foldM (record_at get_build tx) (i :: rest) cm
                 = foldM (record_at get_build tx) rest cm' in
  ((forall fname m, (fname, m) ∈ fns -> pc t ∉ fn_pc m) ->
   skipped_to (load get_build (contractName t) cm))
  ∧ (forall k fname m,
       list_find (fun kv : string * FnMaps => pc t ∈ fn_pc kv.2) fns
         = Some (k, (fname, m)) ->
       (if bool_decide (op t = "JUMPI"%string)
        then forall ln, ln ∈ line m -> ln_jump ln ≠ Some (pc t)
        else forall ln, ln ∈ line m -> pc t ∉ ln_pc ln) ->
       skipped_to
         (<[contractName t :=
              <[source t := <[k := (fname, add_fn_tx (tx_id tx) m)]> fns]> c]>
            (load get_build (contractName t) cm))).
Proof.
  intros Ht Hname Hsrc Hc Hfns skipped_to.
  assert (forall cm', record_at get_build tx i cm = Ok cm' -> skipped_to cm') as Hskip.
  { intros cm' Hcm'. split; [done|]. intros rest. simpl. by rewrite Hcm'. }
  unfold record_at, record_instr in Hskip. rewrite Ht in Hskip.
  rewrite bool_decide_eq_false_2 in Hskip by tauto.
  rewrite Hc, Hfns in Hskip. split.
  - intros Hnone. apply Hskip.
    assert (list_find (fun kv : string * FnMaps => pc t ∈ fn_pc kv.2) fns = None) as ->; [|done].
    apply list_find_None, Forall_forall. intros [fname m] Hin. simpl. by eapply Hnone.
  - intros k fname m Hfn Hlines. apply Hskip. rewrite Hfn.
    unfold record_in_fn. simpl.
    destruct (decide (op t = "JUMPI"%string)) as [Hop|Hop].
    + rewrite bool_decide_eq_true_2 in Hlines by done.
      rewrite bool_decide_eq_false_2 by (by intros []).
      assert (list_find (jump_is (pc t)) (line m) = None) as ->; [|done].
      apply list_find_None, Forall_forall. intros ln Hin. by apply Hlines.
    + rewrite bool_decide_eq_false_2 in Hlines by done.
      rewrite bool_decide_eq_true_2 by done.
      assert (list_find (fun ln => pc t ∈ ln_pc ln) (line m) = None) as ->; [|done].
      apply list_find_None, Forall_forall. intros ln Hin. by apply Hlines.
Qed.

(** C4.  An unattributable step can make recording fail: pc 999 is in no
    function's pc set of contract [A], and a step at that pc is skipped when
    its source file is in the contract's map, but raises [KeyError] when it
    is not (line 105 looks the source file up inside the [try] block, whose
    handler covers [StopIteration] only). *)
Theorem unattributable_step_of_unknown_source_raises :
  contract_Forall (fun m => 999 ∉ fn_pc m) (ex_build "A") ∧
  record_at ex_build ex_tx_unattributable 0 ∅ = Ok (ex_cm ex_fn) ∧
  record_at ex_build ex_tx_stray_unknown_source 0 ∅ = Raise KeyError ∧
  record_history ex_build [ex_tx_stray_unknown_source] = Raise KeyError ∧
  coverage ex_build [ex_tx_stray_unknown_source] = Raise KeyError.
Proof.
  split_and!; try (vm_compute; reflexivity).
  apply map_Forall_singleton. repeat constructor. simpl. set_solver.
Qed.


(** C3.  The recorder followed by the evaluator is not total: a trace that
    ends on the conditional jump of a line the run has hit raises
    [IndexError] (line 121 reads [tx.trace[i+1]]), and a step whose source
    file is not in the contract's coverage map raises [KeyError] (line 105,
    which the handler for [StopIteration] does not cover). *)
Theorem recording_raises_on_trailing_jumpi_and_unknown_source :
  record_history ex_build [ex_tx_trailing_jumpi] = Raise IndexError ∧
  coverage ex_build [ex_tx_trailing_jumpi] = Raise IndexError ∧
  record_history ex_build [ex_tx_unknown_source] = Raise KeyError ∧
  coverage ex_build [ex_tx_unknown_source] = Raise KeyError.
Proof. repeat split; vm_compute; reflexivity. Qed.
(** * Order independence of the recorder *)

(** ** The line mutations as unions *)

Lemma marks_eq h t f h' t' f' :
  h = h' -> t = t' -> f = f' -> mkMarks h t f = mkMarks h' t' f'.
Proof. by intros -> -> ->. Qed.

Lemma mark_hit_add_marks r ln : mark_hit r ln = add_marks (mkMarks {[r]} ∅ ∅) ln.
Proof.
  unfold mark_hit, add_marks, with_marks, add_hit, line_hit, line_true, line_false.
  simpl. do 2 f_equal. apply marks_eq; set_solver.
Qed.

Lemma touch_add_marks ln : touch ln = add_marks empty_marks ln.
Proof.
  unfold touch, add_marks, with_marks, line_hit, line_true, line_false.
  destruct (setdefault_marks ln) as [h t f]; simpl.
  do 2 f_equal. apply marks_eq; set_solver.
Qed.

Lemma mark_outcome_add_marks taken r ln :
  mark_outcome taken r ln = add_marks (marks_of r (Outcome 0 taken)) ln.
Proof.
  unfold mark_outcome, add_marks, with_marks, add_outcome, line_hit, line_true, line_false.
  destruct taken; simpl; do 2 f_equal; apply marks_eq; set_solver.
Qed.

Lemma add_marks_comm d d' ln :
  add_marks d (add_marks d' ln) = add_marks d' (add_marks d ln).
Proof.
  unfold add_marks, line_hit, line_true, line_false. simpl.
  do 2 f_equal. apply marks_eq; set_solver.
Qed.

Lemma line_hit_add_marks d ln : line_hit (add_marks d ln) = hit_runs d ∪ line_hit ln.
Proof. done. Qed.

(** ** In-place updates commute *)

Lemma list_insert_as_alter {A} (f : A -> A) (xs : list A) i x :
  xs !! i = Some x -> <[i := f x]> xs = alter f i xs.
Proof.
  revert i. induction xs as [|y xs IH]; intros [|i]; simpl; try done.
  - by intros [= ->].
  - intros Hi. f_equal. by apply IH.
Qed.

Lemma list_alter_comm {A} (f g : A -> A) (xs : list A) i j :
  (forall x, f (g x) = g (f x)) ->
  alter f i (alter g j xs) = alter g j (alter f i xs).
Proof.
  intros Hfg. destruct (decide (i = j)) as [->|Hij].
  - rewrite !list_alter_alter_eq. apply list_alter_ext; [|done].
    intros x _. apply Hfg.
  - by apply list_alter_alter_ne.
Qed.

Lemma map_alter_comm {A} (f g : A -> A) (m : gmap string A) i j :
  (forall x, f (g x) = g (f x)) ->
  alter f i (alter g j m) = alter g j (alter f i m).
Proof.
  intros Hfg. destruct (decide (i = j)) as [->|Hij].
  - rewrite !alter_alter_eq. apply alter_ext. intros x _. apply Hfg.
  - by apply alter_alter_ne.
Qed.

Lemma update_fn_comm name src k f name' src' k' f' cm :
  (forall m, f (f' m) = f' (f m)) ->
  update_fn name src k f (update_fn name' src' k' f' cm)
  = update_fn name' src' k' f' (update_fn name src k f cm).
Proof.
  intros Hff. unfold update_fn.
  apply map_alter_comm. intros c.
  apply map_alter_comm. intros fns.
  apply list_alter_comm. intros [fname m]. unfold prod_map; simpl.
  by rewrite Hff.
Qed.

Lemma apply_line_act_comm r a r' a' m :
  apply_line_act r a (apply_line_act r' a' m)
  = apply_line_act r' a' (apply_line_act r a m).
Proof.
  assert (forall (X : gset nat), {[r]} ∪ ({[r']} ∪ X) = {[r']} ∪ ({[r]} ∪ X)) as Hset
    by set_solver.
  assert (forall l l' d d' m0,
    add_fn_tx r (update_line l (add_marks d) (add_fn_tx r' (update_line l' (add_marks d') m0)))
    = add_fn_tx r' (update_line l' (add_marks d') (add_fn_tx r (update_line l (add_marks d) m0)))) as Hboth.
  { intros l l' d d' m0. unfold add_fn_tx, update_line; simpl.
    f_equal; [apply Hset|]. apply list_alter_comm. intros ln. apply add_marks_comm. }
  assert (forall l d m0,
    add_fn_tx r (update_line l (add_marks d) (add_fn_tx r' m0))
    = add_fn_tx r' (add_fn_tx r (update_line l (add_marks d) m0))) as Hleft.
  { intros l d m0. unfold add_fn_tx, update_line; simpl. f_equal. apply Hset. }
  assert (forall l d m0,
    add_fn_tx r (add_fn_tx r' (update_line l (add_marks d) m0))
    = add_fn_tx r' (update_line l (add_marks d) (add_fn_tx r m0))) as Hright.
  { intros l d m0. unfold add_fn_tx, update_line; simpl. f_equal. apply Hset. }
  unfold apply_line_act.
  destruct a, a'; auto.
  unfold add_fn_tx; simpl. f_equal. apply Hset.
Qed.

(** ** A step is its decision followed by its update *)

Lemma set_line_update_line l f ln m :
  line m !! l = Some ln -> set_line l (f ln) m = update_line l f m.
Proof.
  intros Hl. unfold set_line, update_line. f_equal. by apply list_insert_as_alter.
Qed.

Lemma record_in_fn_plan r t next m :
  record_in_fn r t next m = (a ← plan_in_fn r t next m; Ok (apply_line_act r a m)).
Proof.
  unfold record_in_fn, plan_in_fn. simpl. case_bool_decide as Hop.
  - destruct (list_find _ _) as [[l ln]|] eqn:Hfind; simpl; [|done].
    apply list_find_Some in Hfind as (Hl & _ & _).
    rewrite mark_hit_add_marks.
    by rewrite (set_line_update_line l (add_marks _) ln (add_fn_tx r m)).
  - destruct (list_find _ _) as [[l ln]|] eqn:Hfind; simpl; [|done].
    apply list_find_Some in Hfind as (Hl & _ & _).
    case_bool_decide as Hr; simpl.
    + rewrite touch_add_marks.
      by rewrite (set_line_update_line l (add_marks _) ln (add_fn_tx r m)).
    + destruct next as [t'|]; simpl; [|done].
      rewrite mark_outcome_add_marks.
      rewrite (set_line_update_line l (add_marks _) ln (add_fn_tx r m)) by done.
      by destruct (negb _).
Qed.

Lemma list_find_cons_eq {A} (P : A -> Prop) `{forall x, Decision (P x)} x (xs : list A) :
  list_find P (x :: xs)
  = if decide (P x) then Some (0%nat, x) else prod_map S id <$> list_find P xs.
Proof. done. Qed.

Lemma list_find_alter {A} (P : A -> Prop) `{forall x, Decision (P x)}
    (g : A -> A) (xs : list A) : forall i,
  (forall x, P (g x) <-> P x) ->
  list_find P (alter g i xs)
  = (fun jx : nat * A => (jx.1, if decide (jx.1 = i) then g jx.2 else jx.2))
      <$> list_find P xs.
Proof.
  intros i HP. revert i. induction xs as [|x xs IH]; intros i; [done|].
  destruct i as [|i].
  - change (alter g 0%nat (x :: xs)) with (g x :: xs).
    rewrite !list_find_cons_eq.
    destruct (decide (P x)) as [Hx|Hx].
    + by rewrite decide_True by (by apply HP).
    + rewrite decide_False by (by rewrite HP).
      by destruct (list_find P xs) as [[j y]|].
  - change (alter g (S i) (x :: xs)) with (x :: alter g i xs).
    rewrite !list_find_cons_eq, IH.
    destruct (decide (P x)) as [Hx|Hx]; [done|].
    destruct (list_find P xs) as [[j y]|]; [|done]. simpl.
    destruct (decide (j = i)) as [->|Hne].
    + by rewrite decide_True.
    + rewrite decide_False; [done|lia].
Qed.

Lemma hit_runs_marks_of r a r' : r' ≠ r -> r' ∉ hit_runs (marks_of r a).
Proof. intros Hne. destruct a as [| | |l []]; simpl; set_solver. Qed.

(** The decision of a run does not see what another run has marked. *)
Lemma plan_in_fn_stable r t next r' a' m :
  r ≠ r' ->
  plan_in_fn r t next (apply_line_act r' a' m) = plan_in_fn r t next m.
Proof.
  intros Hne.
  assert (forall l, plan_in_fn r t next (update_line l (add_marks (marks_of r' a')) m)
                    = plan_in_fn r t next m) as Hupd.
  { intros l. unfold plan_in_fn, update_line. simpl.
    case_bool_decide as Hop.
    - rewrite list_find_alter by done.
      by destruct (list_find _ (line m)) as [[j y]|].
    - rewrite list_find_alter by done.
      destruct (list_find _ (line m)) as [[j y]|]; simpl; [|done].
      assert (forall ln, bool_decide (r ∉ line_hit (add_marks (marks_of r' a') ln))
                         = bool_decide (r ∉ line_hit ln)) as Hhit.
      { intros ln. apply bool_decide_ext. rewrite line_hit_add_marks.
        pose proof (hit_runs_marks_of r' a' r Hne). set_solver. }
      case_decide; [|done]. by rewrite Hhit. }
  unfold apply_line_act.
  assert (forall m0, plan_in_fn r t next (add_fn_tx r' m0) = plan_in_fn r t next m0) as ->
    by done.
  destruct a'; [done|apply Hupd..].
Qed.

Section Commute.

Variable get_build : string -> gmap string (list (string * FnMaps)).

Lemma lookup_load name cm :
  load get_build name cm !! name = Some (contract_view get_build name cm).
Proof.
  unfold load, contract_view. destruct (cm !! name) eqn:E; simpl; [done|].
  apply lookup_insert_eq.
Qed.

Lemma lookup_load_ne name name' cm :
  name ≠ name' -> load get_build name cm !! name' = cm !! name'.
Proof.
  intros Hne. unfold load. destruct (cm !! name); [done|].
  by apply lookup_insert_ne.
Qed.

Lemma contract_view_load name name' cm :
  contract_view get_build name (load get_build name' cm) = contract_view get_build name cm.
Proof.
  unfold contract_view at 1. destruct (decide (name' = name)) as [->|Hne].
  - by rewrite lookup_load.
  - by rewrite lookup_load_ne.
Qed.

Lemma load_present name cm :
  is_Some (cm !! name) -> load get_build name cm = cm.
Proof. intros [c Hc]. unfold load. by rewrite Hc. Qed.

Lemma load_comm name name' cm :
  load get_build name (load get_build name' cm)
  = load get_build name' (load get_build name cm).
Proof.
  destruct (decide (name = name')) as [->|Hne]; [done|].
  unfold load at 1 3.
  rewrite !lookup_load_ne by done.
  unfold load.
  destruct (cm !! name) eqn:E, (cm !! name') eqn:E'; rewrite ?E, ?E'; try done.
  by apply insert_insert_ne.
Qed.

Lemma update_fn_present name src k f cm name' :
  is_Some (update_fn name src k f cm !! name') <-> is_Some (cm !! name').
Proof.
  unfold update_fn. rewrite lookup_alter. case_decide; [|done].
  subst. by rewrite fmap_is_Some.
Qed.

Lemma load_update_fn name name' src k f cm :
  is_Some (cm !! name') ->
  load get_build name (update_fn name' src k f cm)
  = update_fn name' src k f (load get_build name cm).
Proof.
  intros Hsome. destruct (decide (name = name')) as [->|Hne].
  - rewrite !load_present; [done|done|]. by apply update_fn_present.
  - unfold load. unfold update_fn at 1. rewrite lookup_alter_ne by done.
    destruct (cm !! name); [done|].
    unfold update_fn. by rewrite alter_insert_ne.
Qed.

Lemma apply_act_comm r a r' a' cm :
  apply_act get_build r a (apply_act get_build r' a' cm)
  = apply_act get_build r' a' (apply_act get_build r a cm).
Proof.
  assert (forall name, is_Some (load get_build name cm !! name)) as Hsome.
  { intros name. rewrite lookup_load. eauto. }
  destruct a as [|name|name src k a], a' as [|name'|name' src' k' a']; simpl; try done.
  - apply load_comm.
  - rewrite load_update_fn by done. by rewrite load_comm.
  - rewrite load_update_fn by done. by rewrite load_comm.
  - rewrite !load_update_fn by done.
    rewrite (load_comm name name').
    apply update_fn_comm. intros m. apply apply_line_act_comm.
Qed.

Lemma insert_as_update_fn name src k fname m f c fns cm :
  cm !! name = Some c -> c !! src = Some fns -> fns !! k = Some (fname, m) ->
  <[name := <[src := <[k := (fname, f m)]> fns]> c]> cm = update_fn name src k f cm.
Proof.
  intros Hc Hfns Hk. unfold update_fn.
  rewrite (alter_alt_Some _ _ _ _ Hc), (alter_alt_Some _ _ _ _ Hfns).
  by rewrite <- (list_insert_as_alter (prod_map id f) fns k (fname, m) Hk).
Qed.

Lemma record_instr_plan r t next cm :
  record_instr get_build r t next cm
  = (a ← plan get_build r t next cm; Ok (apply_act get_build r a cm)).
Proof.
  unfold record_instr, plan. case_bool_decide; [done|].
  rewrite lookup_load.
  destruct (contract_view get_build (contractName t) cm !! source t) as [fns|] eqn:Hfns;
    [|done].
  destruct (list_find _ fns) as [[k [fname m]]|] eqn:Hfind; [|done].
  apply list_find_Some in Hfind as (Hk & _ & _).
  rewrite record_in_fn_plan.
  destruct (plan_in_fn r t next m) as [a|e]; simpl; [|done].
  f_equal. apply insert_as_update_fn; [apply lookup_load|done..].
Qed.

Lemma contract_view_update_fn name name' src k f cm :
  contract_view get_build name (update_fn name' src k f (load get_build name' cm))
  = if decide (name = name')
    then alter (alter (prod_map id f) k) src (contract_view get_build name cm)
    else contract_view get_build name cm.
Proof.
  unfold contract_view at 1, update_fn. case_decide as Hname.
  - subst. by rewrite lookup_alter_eq, lookup_load.
  - rewrite lookup_alter_ne by done. rewrite lookup_load_ne by done. done.
Qed.

Lemma plan_stable r t next r' a' cm :
  r ≠ r' ->
  plan get_build r t next (apply_act get_build r' a' cm) = plan get_build r t next cm.
Proof.
  intros Hne. destruct a' as [|name'|name' src' k' a']; simpl; [done| |].
  - unfold plan. by rewrite contract_view_load.
  - unfold plan. case_bool_decide; [done|].
    rewrite contract_view_update_fn.
    case_decide as Hname; [|done].
    rewrite lookup_alter. case_decide as Hsrc; [|done]. subst.
    destruct (contract_view get_build (contractName t) cm !! source t) as [fns|];
      simpl; [|done].
    rewrite (list_find_alter (fun kv : string * FnMaps => pc t ∈ fn_pc kv.2)).
    2:{ intros [fname m]. by destruct a'. }
    destruct (list_find _ fns) as [[k [fname m]]|]; simpl; [|done].
    case_decide; simpl; [|done]. by rewrite plan_in_fn_stable.
Qed.

(** Two steps of different runs commute, up to which exception is raised
    when one of them fails. *)
Lemma record_instr_comm r t next r' t' next' cm :
  r ≠ r' ->
  succeeded (cm1 ← record_instr get_build r t next cm;
             record_instr get_build r' t' next' cm1)
  = succeeded (cm1 ← record_instr get_build r' t' next' cm;
               record_instr get_build r t next cm1).
Proof.
  intros Hne.
  rewrite (record_instr_plan r), (record_instr_plan r').
  destruct (plan get_build r t next cm) as [a|e] eqn:Ha;
    destruct (plan get_build r' t' next' cm) as [a'|e'] eqn:Ha'; simpl;
    rewrite ?record_instr_plan, ?plan_stable, ?Ha, ?Ha' by done; simpl; try done.
  by rewrite apply_act_comm.
Qed.

End Commute.

(** ** From steps to transactions and histories *)

Lemma succeeded_bind {A B} (x : result A) (k : A -> result B) :
  succeeded (x ≫= k) = succeeded x ≫= (fun a => succeeded (k a)).
Proof. by destruct x. Qed.

Lemma commute_mod_exc_sym {S} (f g : S -> result S) :
  commute_mod_exc f g -> commute_mod_exc g f.
Proof. intros H s. symmetry. apply H. Qed.

Lemma commute_mod_exc_ret {S} (g : S -> result S) : commute_mod_exc Ok g.
Proof. intros s. simpl. by destruct (g s). Qed.

Lemma commute_mod_exc_raise {S} e (g : S -> result S) :
  commute_mod_exc (fun _ => Raise e) g.
Proof. intros s. simpl. by destruct (g s). Qed.

Lemma foldM_commute {A S} (body : A -> S -> result S) (g : S -> result S) xs :
  (forall x, x ∈ xs -> commute_mod_exc (body x) g) ->
  commute_mod_exc (foldM body xs) g.
Proof.
  induction xs as [|x xs IH]; intros Hbody; [apply commute_mod_exc_ret|].
  assert (commute_mod_exc (body x) g) as Hx by (apply Hbody; left).
  assert (commute_mod_exc (foldM body xs) g) as Hxs.
  { apply IH. intros y Hy. apply Hbody. by right. }
  intros s. simpl.
  transitivity (succeeded (s1 ← (s' ← body x s; g s'); foldM body xs s1)).
  - destruct (body x s) as [s'|e]; simpl; [|done]. apply Hxs.
  - rewrite succeeded_bind, Hx, <- succeeded_bind.
    by destruct (g s).
Qed.

Section Histories.

Variable get_build : string -> gmap string (list (string * FnMaps)).

Lemma record_at_comm tx i tx' i' :
  tx_id tx ≠ tx_id tx' ->
  commute_mod_exc (record_at get_build tx i) (record_at get_build tx' i').
Proof.
  intros Hne. unfold record_at.
  destruct (trace tx !! i) as [t|]; [|apply commute_mod_exc_raise].
  destruct (trace tx' !! i') as [t'|];
    [|apply commute_mod_exc_sym, commute_mod_exc_raise].
  intros cm. by apply record_instr_comm.
Qed.

Lemma record_tx_comm tx tx' :
  tx_id tx ≠ tx_id tx' ->
  commute_mod_exc (record_tx get_build tx) (record_tx get_build tx').
Proof.
  intros Hne. unfold record_tx.
  destruct (receiver tx); [|apply commute_mod_exc_ret].
  destruct (receiver tx'); [|apply commute_mod_exc_sym, commute_mod_exc_ret].
  apply foldM_commute. intros i _.
  apply commute_mod_exc_sym, foldM_commute. intros i' _.
  apply commute_mod_exc_sym. by apply record_at_comm.
Qed.

Lemma runs_identify_cons tx history :
  runs_identify (tx :: history) -> runs_identify history.
Proof. intros H t1 t2 H1 H2. apply H; by right. Qed.

Lemma runs_identify_perm h1 h2 :
  h1 ≡ₚ h2 -> runs_identify h1 -> runs_identify h2.
Proof.
  intros Hperm H t1 t2 H1 H2. apply H; by rewrite Hperm.
Qed.

(** Recording a permuted history reaches the same coverage map, or fails
    as well. *)
Lemma record_perm h1 h2 :
  h1 ≡ₚ h2 -> runs_identify h1 ->
  forall cm, succeeded (foldM (record_tx get_build) h1 cm)
             = succeeded (foldM (record_tx get_build) h2 cm).
Proof.
  induction 1 as [|tx h1 h2 Hperm IH|tx tx' h|h1 h2 h3 Hperm12 IH12 Hperm23 IH23];
    intros Hids cm.
  - done.
  - simpl. rewrite !succeeded_bind.
    destruct (record_tx get_build tx cm) as [cm1|e]; simpl; [|done].
    apply IH. by eapply runs_identify_cons.
  - simpl.
    destruct (decide (tx_id tx' = tx_id tx)) as [Heq|Hid].
    { assert (tx' = tx) as -> by (apply Hids; [by left|by right; left|done]). done. }
    pose proof (record_tx_comm tx' tx Hid cm) as Hcomm.
    change (succeeded (foldM (record_tx get_build) (tx' :: tx :: h) cm)
            = succeeded (foldM (record_tx get_build) (tx :: tx' :: h) cm)).
    transitivity (succeeded (cm2 ← (cm1 ← record_tx get_build tx' cm;
                                    record_tx get_build tx cm1);
                             foldM (record_tx get_build) h cm2)).
    { simpl. by destruct (record_tx get_build tx' cm). }
    transitivity (succeeded (cm2 ← (cm1 ← record_tx get_build tx cm;
                                    record_tx get_build tx' cm1);
                             foldM (record_tx get_build) h cm2)).
    { by rewrite !(succeeded_bind (_ ≫= _)), Hcomm. }
    simpl. by destruct (record_tx get_build tx cm).
  - rewrite IH12 by done. apply IH23. by eapply runs_identify_perm.
Qed.

End Histories.

(** C8.  Recording the transactions of a history in another order (whole
    traces permuted, each trace kept as it is) reaches the same coverage map
    and the same report, or raises in both orders: the report does not
    depend on the order in which the runs are processed. *)
Theorem coverage_independent_of_run_order
    (get_build : string -> gmap string (list (string * FnMaps)))
    (h1 h2 : list Tx) :
  h1 ≡ₚ h2 -> runs_identify h1 ->
  succeeded (record_history get_build h1) = succeeded (record_history get_build h2) ∧
  succeeded (coverage get_build h1) = succeeded (coverage get_build h2) ∧
  (forall report, coverage get_build h1 = Ok report <-> coverage get_build h2 = Ok report).
Proof.
  intros Hperm Hids.
  pose proof (record_perm get_build h1 h2 Hperm Hids ∅) as Hrec.
  fold (record_history get_build h1) in Hrec.
  fold (record_history get_build h2) in Hrec.
  assert (succeeded (coverage get_build h1) = succeeded (coverage get_build h2)) as Hcov.
  { unfold coverage. by rewrite !succeeded_bind, Hrec. }
  split; [done|]. split; [done|].
  intros report.
  destruct (coverage get_build h1) as [r1|e1], (coverage get_build h2) as [r2|e2];
    simpl in Hcov; try done; split; congruence.
Qed.
(** * Properties of the evaluator *)

Lemma count_line_unhit ln : line_hit ln = ∅ -> c_count (count_line ln) = 0%nat.
Proof.
  unfold line_hit, setdefault_marks, count_line.
  destruct (ln_marks ln) as [mk|]; simpl; [|done].
  intros ->. apply size_empty.
Qed.

Lemma count_line_count ln : c_count (count_line ln) = size (line_hit ln).
Proof.
  unfold line_hit, setdefault_marks, count_line.
  destruct (ln_marks ln) as [mk|]; cbn; [done|]. by rewrite size_empty.
Qed.

(** C7.  A function none of whose lines has a run in its hit set evaluates
    to exactly [{'pct': 0}], whatever the function-level run set holds. *)
Theorem zero_coverage_pct_zero (m : FnMaps) :
  (forall ln, ln ∈ line m -> line_hit ln = ∅) ->
  evaluate_fn m = Ok pct_zero.
Proof.
  intros Hall. unfold evaluate_fn.
  case_bool_decide as Hfn; [done|].
  assert (forallb (fun cl => (c_count cl =? 0)%nat) (count_line <$> line m) = true) as ->; [|done].
  apply forallb_forall. intros cl Hin.
  apply list_elem_of_In, list_elem_of_fmap in Hin as (ln & -> & Hln).
  rewrite count_line_unhit; [done|]. by apply Hall.
Qed.

(** ** The scoring loop *)

Lemma in_cov_empty i : ¬ in_cov i (mkCov ∅ ∅ ∅).
Proof. unfold in_cov; simpl. set_solver. Qed.

(** The loop body only ever adds its own index. *)
Lemma score_line_in_cov c cl acc acc' i :
  score_line c cl acc = Ok acc' -> in_cov i acc'.2 -> i = c ∨ in_cov i acc.2.
Proof.
  destruct acc as [count cov]. unfold score_line, in_cov.
  destruct (c_count cl =? 0)%nat; [intros [= <-]; by right|].
  destruct (c_jump cl) as [j|t f]; simpl.
  - destruct (truthy_pc j); simpl; [done|].
    intros [= <-]; simpl. set_solver.
  - destruct (t =? 0)%nat, (f =? 0)%nat; simpl; intros [= <-]; simpl; set_solver.
Qed.

Lemma score_lines_below ls : forall c acc acc' i,
  score_lines c ls acc = Ok acc' -> (i < c)%nat -> in_cov i acc'.2 -> in_cov i acc.2.
Proof.
  induction ls as [|cl ls IH]; intros c acc acc' i; simpl.
  - by intros [= <-].
  - destruct (score_line c cl acc) as [acc1|e] eqn:E1; simpl; [|done].
    intros Hrest Hlt Hin.
    apply (IH _ _ _ i) in Hrest; [|lia|done].
    apply (score_line_in_cov _ _ _ _ i E1) in Hrest as [->|]; [lia|done].
Qed.

(** A line on which the loop body does nothing is in none of the sets at
    the end of the loop. *)
Lemma score_lines_inert ls : forall c acc acc' k cl,
  score_lines c ls acc = Ok acc' ->
  ls !! k = Some cl ->
  (forall a, score_line (c + k) cl a = Ok a) ->
  ¬ in_cov (c + k)%nat acc.2 -> ¬ in_cov (c + k)%nat acc'.2.
Proof.
  induction ls as [|cl0 ls IH]; intros c acc acc' k cl; simpl; [done|].
  destruct (score_line c cl0 acc) as [acc1|e] eqn:E1; simpl; [|done].
  intros Hrest Hk Hinert Hnot. destruct k as [|k]; simpl in Hk.
  - injection Hk as ->. rewrite Nat.add_0_r in *.
    rewrite Hinert in E1. injection E1 as <-.
    intros Hin. apply Hnot. eapply score_lines_below; [exact Hrest|lia|exact Hin].
  - replace (c + S k)%nat with (S c + k)%nat in * by lia.
    eapply IH; [exact Hrest|exact Hk|exact Hinert|].
    intros Hin. apply (score_line_in_cov _ _ _ _ _ E1) in Hin as [?|?]; [lia|done].
Qed.

(** When no line has a count the loop leaves its accumulator alone. *)
Lemma score_lines_no_count ls : forall c acc,
  forallb (fun cl => (c_count cl =? 0)%nat) ls = true ->
  score_lines c ls acc = Ok acc.
Proof.
  induction ls as [|cl ls IH]; intros c acc; simpl; [done|].
  intros [Hcl Hls]%andb_true_iff.
  unfold score_line at 1. destruct acc as [count cov]. rewrite Hcl. simpl.
  by apply IH.
Qed.

(** On counted lines the scoring loop never raises: the [TypeError] of
    [False not in <int>] needs a line with a count whose [jump] was not
    replaced by the pair of counts, and the counting loop leaves none. *)
Lemma score_line_count_line_ok c ln acc :
  exists acc', score_line c (count_line ln) acc = Ok acc'.
Proof.
  destruct acc as [count cov]. unfold score_line, count_line.
  destruct (ln_marks ln) as [mk|]; simpl; [|eauto].
  destruct (size (hit_runs mk) =? 0)%nat; [eauto|].
  destruct (truthy_pc (ln_jump ln)) eqn:Hj; simpl.
  - destruct (size (true_runs mk) =? 0)%nat, (size (false_runs mk) =? 0)%nat;
      simpl; eauto.
  - rewrite Hj. simpl. eauto.
Qed.

Lemma score_lines_count_line_ok ls : forall c acc,
  exists acc', score_lines c (count_line <$> ls) acc = Ok acc'.
Proof.
  induction ls as [|ln ls IH]; intros c acc; simpl; [eauto|].
  destruct (score_line_count_line_ok c ln acc) as [acc1 ->]. simpl. apply IH.
Qed.

(** The evaluator of a function raises only when it divides by a zero
    [total]. *)
Lemma evaluate_fn_raises m e :
  evaluate_fn m = Raise e -> e = ZeroDivisionError ∧ total m = 0.
Proof.
  unfold evaluate_fn. case_bool_decide; [done|].
  destruct (forallb _ _); [done|].
  destruct (score_lines_count_line_ok (line m) 0%nat (0, mkCov ∅ ∅ ∅))
    as [[count cov] ->]. simpl.
  destruct (total m =? 0) eqn:Htot.
  - intros [= <-]. split; [done|]. by apply Z.eqb_eq.
  - by destruct (count =? total m).
Qed.

Lemma score_line_hit_without_outcome ln c acc :
  hit_without_outcome ln -> score_line c (count_line ln) acc = Ok acc.
Proof.
  intros (Hj & Hhit & Ht & Hf). destruct acc as [count cov].
  unfold line_hit, line_true, line_false, setdefault_marks in *.
  unfold score_line, count_line.
  destruct (ln_marks ln) as [mk|]; simpl in *; [|done].
  rewrite Hj, Ht, Hf, !size_empty. simpl.
  by destruct (size (hit_runs mk) =? 0)%nat.
Qed.

Lemma score_hit_without_outcome m c ln count cov :
  line m !! c = Some ln -> hit_without_outcome ln ->
  score m = Ok (count, cov) -> ¬ in_cov c cov.
Proof.
  intros Hc Hln Hs.
  apply (score_lines_inert _ 0%nat _ _ c (count_line ln) Hs).
  - by rewrite list_lookup_fmap, Hc.
  - intros a. by apply score_line_hit_without_outcome.
  - apply in_cov_empty.
Qed.

(** C10.  A line with a conditional jump that was hit while neither
    outcome was observed adds nothing to the score, and its index is in none
    of the [line], [true] and [false] sets of the result. *)
Theorem branch_hit_without_outcome_scores_nothing
    (m : FnMaps) (c : nat) (ln : LineRecord) (j : Z) :
  line m !! c = Some ln ->
  ln_jump ln = Some j -> j ≠ 0 ->
  line_hit ln ≠ ∅ -> line_true ln = ∅ -> line_false ln = ∅ ->
  (forall acc, score_line c (count_line ln) acc = Ok acc) ∧
  (forall count cov, score m = Ok (count, cov) ->
     (c ∉ cov_line cov) ∧ (c ∉ cov_true cov) ∧ (c ∉ cov_false cov)) ∧
  (forall cov p, evaluate_fn m = Ok (Detail cov p) ->
     (c ∉ cov_line cov) ∧ (c ∉ cov_true cov) ∧ (c ∉ cov_false cov)).
Proof.
  intros Hc Hj Hj0 Hhit Ht Hf.
  assert (hit_without_outcome ln) as Hln.
  { split; [|done]. rewrite Hj. simpl. by apply negb_true_iff, Z.eqb_neq. }
  split; [intros acc; by apply score_line_hit_without_outcome|].
  split.
  - intros count cov Hs.
    pose proof (score_hit_without_outcome _ _ _ _ _ Hc Hln Hs) as Hnot.
    unfold in_cov in Hnot. tauto.
  - intros cov p. unfold evaluate_fn.
    case_bool_decide; [done|].
    destruct (forallb _ _); [done|].
    fold (score m). destruct (score m) as [[count cov']|e] eqn:Hs; simpl; [|done].
    destruct (total m =? 0); [done|].
    destruct (count =? total m); [done|].
    intros [= <- <-].
    pose proof (score_hit_without_outcome _ _ _ _ _ Hc Hln Hs) as Hnot.
    unfold in_cov in Hnot. tauto.
Qed.

Lemma size_eqb_nonempty (X : gset nat) : X ≠ ∅ -> (size X =? 0)%nat = false.
Proof.
  intros Hne. apply Nat.eqb_neq. intros Hz. apply Hne.
  by apply size_empty_iff, leibniz_equiv in Hz.
Qed.

(** The rounding follows the float quotient, not the exact one: 1/40 and
    199/200 are no floats, and the floats nearest to them lie above 0.025 and
    below 0.995; 1/8 and 3/8 are floats, and their ties go to the even
    hundredth. *)
Lemma round2_on_floats :
  round2 2 3 = 67 ∧ round2 1 40 = 3 ∧ round2 199 200 = 99 ∧
  round2 1 8 = 12 ∧ round2 3 8 = 38 ∧ round2 1 200 = 1 ∧ round2 3 200 = 1.
Proof. repeat split; vm_compute; reflexivity. Qed.

(** C2.  A function of exactly two lines, line 0 without a jump and line 1
    with one, and [total] 3: once line 0 is hit and line 1 is hit with only
    the true outcome observed, the score is 2 and the evaluator reports
    [{line: {0}, true: {1}, false: {}, pct: 0.67}]. *)
Theorem two_line_true_only_example (m : FnMaps) (l0 l1 : LineRecord) (j : Z) :
  line m = [l0; l1] -> total m = 3 -> fn_tx m ≠ ∅ ->
  ln_jump l0 = None -> ln_jump l1 = Some j -> j ≠ 0 ->
  line_hit l0 ≠ ∅ ->
  line_hit l1 ≠ ∅ -> line_true l1 ≠ ∅ -> line_false l1 = ∅ ->
  score m = Ok (2, mkCov {[0%nat]} {[1%nat]} ∅) ∧
  evaluate_fn m = Ok (Detail (mkCov {[0%nat]} {[1%nat]} ∅) 67).
Proof.
  intros Hline Htot Hfn Hj0 Hj1 Hj Hh0 Hh1 Ht1 Hf1.
  assert (score m = Ok (2, mkCov {[0%nat]} {[1%nat]} ∅)) as Hscore.
  { unfold score. rewrite Hline. simpl.
    unfold line_hit, line_true, line_false, setdefault_marks in *.
    unfold score_line, count_line. rewrite Hj0, Hj1.
    destruct (ln_marks l0) as [mk0|], (ln_marks l1) as [mk1|]; simpl in *; try done.
    assert (negb (j =? 0) = true) as -> by (by apply negb_true_iff, Z.eqb_neq).
    rewrite Hf1, size_empty, !size_eqb_nonempty by done. simpl.
    rewrite andb_false_r. simpl. by rewrite !(right_id_L ∅ (∪)). }
  split; [done|].
  unfold evaluate_fn. rewrite bool_decide_eq_false_2 by done.
  fold (score m). rewrite Hscore, Htot. simpl.
  assert (forallb (fun cl => (c_count cl =? 0)%nat) (count_line <$> line m) = false) as ->; [|done].
  rewrite Hline. simpl. rewrite count_line_count, size_eqb_nonempty; done.
Qed.

Lemma full_score_pct_one (m : FnMaps) (cov : Coverage) :
  hit_in_fn m -> total m ≠ 0 ->
  score m = Ok (total m, cov) ->
  evaluate_fn m = Ok pct_one.
Proof.
  intros Hinv Htot Hscore. unfold evaluate_fn.
  destruct (forallb (fun cl => (c_count cl =? 0)%nat) (count_line <$> line m)) eqn:Hall.
  { unfold score in Hscore. rewrite score_lines_no_count in Hscore by done.
    congruence. }
  assert (fn_tx m ≠ ∅) as Hfn.
  { apply not_true_iff_false in Hall. intros Hfn. apply Hall.
    apply forallb_forall. intros cl Hin.
    apply list_elem_of_In, list_elem_of_fmap in Hin as (ln & -> & Hln).
    rewrite count_line_unhit; [done|].
    unfold hit_in_fn in Hinv. rewrite Forall_forall in Hinv.
    specialize (Hinv _ Hln). rewrite Hfn in Hinv. set_solver. }
  rewrite bool_decide_eq_false_2 by done.
  fold (score m). rewrite Hscore. simpl.
  apply Z.eqb_neq in Htot. rewrite Htot. by rewrite Z.eqb_refl.
Qed.


(** C6.  For every function of the coverage map reached by recording a
    history, when the accumulated score equals a nonzero [total] the
    evaluator's result is exactly [{'pct': 1}], without the detail sets. *)
Theorem full_score_collapses_to_pct_one
    (get_build : string -> gmap string (list (string * FnMaps)))
    (history : list Tx)
    (cm : gmap string (gmap string (list (string * FnMaps))))
    (name src : string) (c : gmap string (list (string * FnMaps)))
    (fns : list (string * FnMaps)) (k : nat) (fname : string) (m : FnMaps)
    (cov : Coverage) :
  (forall name, contract_Forall hit_in_fn (get_build name)) ->
  record_history get_build history = Ok cm ->
  cm !! name = Some c -> c !! src = Some fns -> fns !! k = Some (fname, m) ->
  total m ≠ 0 ->
  score m = Ok (total m, cov) ->
  evaluate_fn m = Ok pct_one.
Proof.
  intros Hbuild Hrec Hc Hfns Hk Htot Hscore.
  apply (full_score_pct_one m cov); [|done..].
  pose proof (record_history_Forall get_build hit_in_fn Hbuild
                record_in_fn_hit_in_fn history cm Hrec) as Hcm.
  pose proof (map_Forall_lookup_1 _ _ _ _ Hcm Hc) as HPc.
  pose proof (map_Forall_lookup_1 _ _ _ _ HPc Hfns) as HPfns. simpl in HPfns.
  apply (Forall_lookup_1 _ _ _ _ HPfns Hk).
Qed.

(** * When the recorder and the evaluator return *)

Lemma foldM_ok {A S} (I : S -> Prop) (body : A -> S -> result S) xs :
  (forall x s, x ∈ xs -> I s -> exists s', body x s = Ok s' ∧ I s') ->
  forall s, I s -> exists s', foldM body xs s = Ok s' ∧ I s'.
Proof.
  induction xs as [|x xs IH]; intros Hbody s Hs; simpl; [eauto|].
  destruct (Hbody x s) as (s1 & -> & Hs1); [by left|done|]. simpl.
  apply IH; [|done]. intros y s' Hy. apply Hbody. by right.
Qed.

Lemma forM_ok {A B} (f : A -> result B) xs :
  Forall (fun x => exists y, f x = Ok y) xs -> exists ys, forM f xs = Ok ys.
Proof.
  induction 1 as [|x xs [y Hy] _ [ys Hys]]; simpl; [eauto|].
  rewrite Hy. simpl. rewrite Hys. simpl. eauto.
Qed.

Lemma dictM_ok {A B} (f : A -> result B) (m : gmap string A) :
  map_Forall (fun _ x => exists y, f x = Ok y) m -> exists m', dictM f m = Ok m'.
Proof.
  intros Hm. unfold dictM.
  destruct (forM_ok (fun kv : string * A => v ← f kv.2; Ok (kv.1, v)) (map_to_list m))
    as [kvs ->]; [|simpl; eauto].
  apply map_Forall_to_list in Hm. eapply Forall_impl; [exact Hm|].
  intros [k x] [y Hy]; simpl in *. rewrite Hy. simpl. eauto.
Qed.

Lemma plan_in_fn_ok r t next m :
  (op t = "JUMPI"%string -> is_Some next) ->
  exists a, plan_in_fn r t next m = Ok a.
Proof.
  intros Hnext. unfold plan_in_fn. case_bool_decide as Hop.
  - destruct (list_find _ _) as [[l ln]|]; eauto.
  - destruct (list_find _ _) as [[l ln]|]; [|eauto].
    case_bool_decide; [eauto|].
    destruct Hnext as [t' ->]; [|eauto].
    by destruct (decide (op t = "JUMPI"%string)).
Qed.

Section Totality.

Variable get_build : string -> gmap string (list (string * FnMaps)).

Lemma sources_kept_load name cm :
  sources_kept get_build cm -> sources_kept get_build (load get_build name cm).
Proof.
  unfold load. intros Hcm. destruct (cm !! name); [done|].
  by apply map_Forall_insert_2.
Qed.

Lemma sources_kept_update_fn name src k f cm :
  sources_kept get_build cm -> sources_kept get_build (update_fn name src k f cm).
Proof.
  intros Hcm name' c'. unfold update_fn. rewrite lookup_alter_Some.
  intros [(-> & c & Hc & ->)|[_ Hc']].
  - rewrite dom_alter_L. by apply (Hcm _ _ Hc).
  - by apply (Hcm _ _ Hc').
Qed.

Lemma sources_kept_apply_act r a cm :
  sources_kept get_build cm -> sources_kept get_build (apply_act get_build r a cm).
Proof.
  intros Hcm. destruct a as [|name|name src k a]; simpl; [done|..].
  - by apply sources_kept_load.
  - by apply sources_kept_update_fn, sources_kept_load.
Qed.

Lemma contract_view_dom name cm :
  sources_kept get_build cm ->
  dom (contract_view get_build name cm) = dom (get_build name).
Proof.
  intros Hcm. unfold contract_view.
  destruct (cm !! name) as [c|] eqn:Hc; simpl; [|done]. by apply (Hcm _ _ Hc).
Qed.

Lemma record_instr_ok r t next cm :
  instr_attributable get_build t next ->
  sources_kept get_build cm ->
  exists cm', record_instr get_build r t next cm = Ok cm' ∧ sources_kept get_build cm'.
Proof.
  intros [Hsrc Hnext] Hcm. rewrite record_instr_plan.
  assert (exists a, plan get_build r t next cm = Ok a) as [a ->].
  { unfold plan. case_bool_decide as Hskip; [eauto|].
    assert (is_Some (contract_view get_build (contractName t) cm !! source t))
      as [fns ->].
    { apply elem_of_dom. rewrite contract_view_dom by done.
      apply elem_of_dom, Hsrc; tauto. }
    destruct (list_find _ fns) as [[k [fname m]]|]; [|eauto].
    destruct (plan_in_fn_ok r t next m Hnext) as [a ->]. simpl. eauto. }
  simpl. eexists. split; [done|]. by apply sources_kept_apply_act.
Qed.

Lemma record_tx_ok tx cm :
  tx_attributable get_build tx ->
  sources_kept get_build cm ->
  exists cm', record_tx get_build tx cm = Ok cm' ∧ sources_kept get_build cm'.
Proof.
  intros Htx Hcm. unfold record_tx. destruct (receiver tx); [|eauto].
  apply (foldM_ok (sources_kept get_build)); [|done].
  intros i s Hi Hs. unfold record_at.
  apply elem_of_seq in Hi as [_ Hi].
  destruct (lookup_lt_is_Some_2 (trace tx) i) as [t Ht]; [lia|].
  rewrite Ht. apply record_instr_ok; [|done]. by apply Htx.
Qed.

Lemma record_history_ok history :
  Forall (tx_attributable get_build) history ->
  exists cm, record_history get_build history = Ok cm.
Proof.
  intros Hh. unfold record_history.
  destruct (foldM_ok (sources_kept get_build) (record_tx get_build) history)
    with (s := (∅ : gmap string (gmap string (list (string * FnMaps)))))
    as (cm & Hcm & _); [|apply map_Forall_empty|eauto].
  intros tx s Htx Hs. apply record_tx_ok; [|done].
  rewrite Forall_forall in Hh. by apply Hh.
Qed.

Lemma add_total_record_in_fn r t next m m' :
  total m ≠ 0 -> record_in_fn r t next m = Ok m' -> total m' ≠ 0.
Proof.
  rewrite record_in_fn_plan.
  destruct (plan_in_fn r t next m) as [a|e]; simpl; [|done].
  intros Htot [= <-]. by destruct a.
Qed.

Lemma evaluate_ok (cm : gmap string (gmap string (list (string * FnMaps)))) :
  cm_Forall (fun m => total m ≠ 0) cm -> exists report, evaluate cm = Ok report.
Proof.
  intros Hcm. unfold evaluate. apply dictM_ok.
  eapply map_Forall_impl; [exact Hcm|]. intros name c Hc. simpl in *.
  apply dictM_ok. eapply map_Forall_impl; [exact Hc|]. intros src fns Hfns. simpl in *.
  apply forM_ok. eapply Forall_impl; [exact Hfns|]. intros [fname m] Hm. simpl in *.
  destruct (evaluate_fn m) as [rep|e] eqn:Hrep; simpl; [eauto|].
  apply evaluate_fn_raises in Hrep as [_ Hz]. done.
Qed.

(** X23.  The recorder followed by the evaluator returns a report when every
    step of every trace has a source file the contract's coverage map knows,
    no trace ends on a conditional jump, and no function has a zero
    [total]. *)
Lemma coverage_ok history :
  (forall name, contract_Forall (fun m => total m ≠ 0) (get_build name)) ->
  Forall (tx_attributable get_build) history ->
  exists report, coverage get_build history = Ok report.
Proof.
  intros Htot Hh. unfold coverage.
  destruct (record_history_ok history Hh) as [cm Hcm]. rewrite Hcm. simpl.
  apply evaluate_ok.
  by apply (record_history_Forall get_build _ Htot add_total_record_in_fn history cm).
Qed.

End Totality.

(** * Properties of the content hash *)

Lemma string_length_app (s1 s2 : string) :
  String.length (s1 +:+ s2) = (String.length s1 + String.length s2)%nat.
Proof. induction s1 as [|a s1 IH]; simpl; [done|]. by rewrite <- IH. Qed.

Lemma substring_prefix (s1 s2 : string) :
  substring 0 (String.length s1) (s1 +:+ s2) = s1.
Proof.
  induction s1 as [|a s1 IH]; simpl.
  - by destruct s2.
  - f_equal. apply IH.
Qed.

Lemma drop_last_app (n : nat) (s1 s2 : string) :
  String.length s2 = n -> drop_last n (s1 +:+ s2) = s1.
Proof.
  intros Hn. unfold drop_last. rewrite string_length_app, Hn.
  replace (String.length s1 + n - n)%nat with (String.length s1) by lia.
  apply substring_prefix.
Qed.

(** C9.  Two bytecode strings that differ only in their last 68 characters
    have the same content hash, whatever the hash function. *)
Theorem bytecode_hash_ignores_metadata
    (sha1_hexdigest : string -> string) (code meta1 meta2 : string) :
  String.length meta1 = 68%nat -> String.length meta2 = 68%nat ->
  bytecode_hash sha1_hexdigest (code +:+ meta1)
  = bytecode_hash sha1_hexdigest (code +:+ meta2).
Proof.
  intros H1 H2. unfold bytecode_hash. by rewrite !drop_last_app.
Qed.

(** * The statements at concrete inputs *)

Lemma ex_build_Forall (P : FnMaps -> Prop) :
  P ex_fn -> forall name, contract_Forall P (ex_build name).
Proof.
  intros HP name. unfold contract_Forall, ex_build.
  apply map_Forall_singleton. by repeat constructor.
Qed.

(** Run 7 through the recorder and the evaluator. *)
Lemma ex_tx_recorded : record_history ex_build [ex_tx] = Ok (ex_cm ex_fn_recorded).
Proof. vm_compute. reflexivity. Qed.

Lemma ex_tx_report :
  coverage ex_build [ex_tx]
  = Ok {[ "A"%string :=
          {[ "a.sol"%string :=
             [("f"%string, Detail (mkCov {[0%nat]} {[1%nat]} ∅) 67)] ]} ]}.
Proof. vm_compute. reflexivity. Qed.

(** Run 9 covers the function in full. *)
Lemma ex_tx_both_report :
  coverage ex_build [ex_tx_both]
  = Ok {[ "A"%string := {[ "a.sol"%string := [("f"%string, pct_one)] ]} ]}.
Proof. vm_compute. reflexivity. Qed.

Lemma jumpi_outcome_classification_witness :
  record_at ex_build ex_tx 2 (ex_cm ex_fn_mid) = Ok (ex_cm ex_fn_recorded).
Proof.
  pose proof (jumpi_outcome_classification ex_build ex_tx 2 (ex_instr 200 "JUMPI")
                (ex_cm ex_fn_mid) {[ "a.sol"%string := [("f"%string, ex_fn_mid)] ]}
                [("f"%string, ex_fn_mid)] 0 "f" ex_fn_mid 1
                (mkLine [201] (Some 200) (Some (mkMarks {[7%nat]} ∅ ∅)))
                ltac:(reflexivity) ltac:(reflexivity)
                ltac:(discriminate) ltac:(discriminate)
                ltac:(vm_compute; reflexivity) ltac:(vm_compute; reflexivity)
                ltac:(vm_compute; reflexivity) ltac:(vm_compute; reflexivity))
    as [Hhit _].
  rewrite (Hhit ltac:(vm_compute; reflexivity) (ex_instr 300 "JUMPDEST") eq_refl).
  vm_compute. reflexivity.
Defined.

Lemma two_line_true_only_example_witness :
  evaluate_fn ex_fn_recorded = Ok (Detail (mkCov {[0%nat]} {[1%nat]} ∅) 67).
Proof.
  apply (two_line_true_only_example ex_fn_recorded
           (mkLine [100; 101] None (Some (mkMarks {[7%nat]} ∅ ∅)))
           (mkLine [201] (Some 200) (Some (mkMarks {[7%nat]} {[7%nat]} ∅))) 200);
    try reflexivity; try lia; vm_compute; discriminate.
Defined.

Lemma unattributable_instruction_skipped_witness :
  record_at ex_build ex_tx_unattributable 0 ∅ = Ok {[ "A"%string := ex_build "A" ]} ∧
  record_at ex_build ex_tx_unattributable 1 {[ "A"%string := ex_build "A" ]}
    = Ok (ex_cm (add_fn_tx 13 ex_fn)).
Proof.
  split.
  - pose proof (unattributable_instruction_skipped ex_build ex_tx_unattributable 0
                  (ex_instr 999 "STOP") ∅ (ex_build "A") [("f"%string, ex_fn)]
                  ltac:(reflexivity) ltac:(discriminate) ltac:(discriminate)
                  ltac:(vm_compute; reflexivity) ltac:(vm_compute; reflexivity))
      as [Hnone _].
    destruct Hnone as [-> _]; [|vm_compute; reflexivity].
    intros fname m Hin. apply list_elem_of_singleton in Hin. injection Hin as -> ->.
    simpl. rewrite !elem_of_cons, elem_of_nil. intros Hpc.
    repeat (destruct Hpc as [Hpc|Hpc]; [discriminate|]). done.
  - pose proof (unattributable_instruction_skipped ex_build ex_tx_unattributable 1
                  (ex_instr 300 "JUMPDEST") {[ "A"%string := ex_build "A" ]}
                  (ex_build "A") [("f"%string, ex_fn)]
                  ltac:(reflexivity) ltac:(discriminate) ltac:(discriminate)
                  ltac:(vm_compute; reflexivity) ltac:(vm_compute; reflexivity))
      as [_ Hfn].
    destruct (Hfn 0%nat "f"%string ex_fn) as [-> _];
      [vm_compute; reflexivity| |vm_compute; reflexivity].
    rewrite bool_decide_eq_false_2 by discriminate.
    intros ln Hin. simpl in Hin. rewrite !elem_of_cons, elem_of_nil in Hin.
    destruct Hin as [->|[->|[]]]; simpl; rewrite ?elem_of_cons, elem_of_nil; intros Hpc;
      repeat (destruct Hpc as [Hpc|Hpc]; [discriminate|]); done.
Defined.

Lemma outcome_runs_within_hit_runs_witness :
  cm_Forall fn_outcome_in_hit (ex_cm ex_fn_recorded).
Proof.
  assert (forall name, contract_Forall fn_outcome_in_hit (ex_build name)) as Hbuild.
  { apply ex_build_Forall. repeat constructor; intros r; vm_compute; set_solver. }
  apply (proj2 (outcome_runs_within_hit_runs ex_build Hbuild) [ex_tx]).
  vm_compute. reflexivity.
Defined.

Lemma full_score_collapses_to_pct_one_witness :
  evaluate_fn ex_fn_both = Ok pct_one.
Proof.
  assert (forall name, contract_Forall hit_in_fn (ex_build name)) as Hbuild.
  { apply ex_build_Forall. repeat constructor; vm_compute; set_solver. }
  eapply (full_score_collapses_to_pct_one ex_build [ex_tx_both] (ex_cm ex_fn_both)
            "A" "a.sol" {[ "a.sol"%string := [("f"%string, ex_fn_both)] ]}
            [("f"%string, ex_fn_both)] 0 "f" ex_fn_both
            (mkCov ({[1%nat]} ∪ ({[0%nat]} ∪ ∅)) ∅ ∅) Hbuild);
    try (vm_compute; reflexivity).
  discriminate.
Defined.

Lemma zero_coverage_pct_zero_witness :
  evaluate_fn (add_fn_tx 13 ex_fn) = Ok pct_zero.
Proof.
  apply zero_coverage_pct_zero. intros ln Hin. simpl in Hin.
  rewrite !elem_of_cons, elem_of_nil in Hin.
  by destruct Hin as [->|[->|[]]].
Defined.

Lemma coverage_independent_of_run_order_witness :
  succeeded (coverage ex_build [ex_tx; ex_tx_both])
  = succeeded (coverage ex_build [ex_tx_both; ex_tx]).
Proof.
  apply (coverage_independent_of_run_order ex_build [ex_tx; ex_tx_both] [ex_tx_both; ex_tx]).
  - apply perm_swap.
  - intros t1 t2 H1 H2 Hid.
    rewrite !elem_of_cons, elem_of_nil in H1, H2.
    destruct H1 as [->|[->|[]]], H2 as [->|[->|[]]]; try reflexivity; discriminate Hid.
Defined.

Lemma bytecode_hash_ignores_metadata_witness :
  bytecode_hash (fun s => s) (ex_code +:+ ex_meta1)
  = bytecode_hash (fun s => s) (ex_code +:+ ex_meta2).
Proof.
  apply bytecode_hash_ignores_metadata; reflexivity.
Defined.

Lemma branch_hit_without_outcome_scores_nothing_witness :
  score_line 1 (count_line (mkLine [201] (Some 200) (Some (mkMarks {[7%nat]} ∅ ∅))))
             (1, mkCov {[0%nat]} ∅ ∅)
    = Ok (1, mkCov {[0%nat]} ∅ ∅) ∧
  (1%nat ∉ cov_line (mkCov ({[0%nat]} ∪ ∅) ∅ ∅)).
Proof.
  pose proof (branch_hit_without_outcome_scores_nothing ex_fn_mid 1
                (mkLine [201] (Some 200) (Some (mkMarks {[7%nat]} ∅ ∅))) 200
                ltac:(reflexivity) ltac:(reflexivity) ltac:(lia)
                ltac:(vm_compute; discriminate)
                ltac:(reflexivity) ltac:(reflexivity))
    as (Hline & Hscore & _).
  split; [apply Hline|].
  pose proof (Hscore 1 (mkCov ({[0%nat]} ∪ ∅) ∅ ∅)) as Hcov.
  apply Hcov. vm_compute. reflexivity.
Defined.

(** * Further properties of the recorder *)

(** ** The index loop as a pass over the trace *)

Lemma record_at_steps get_build tx tr : forall pre cm,
  trace tx = pre ++ tr ->
  foldM (record_at get_build tx) (seq (length pre) (length tr)) cm
  = record_steps get_build (tx_id tx) tr cm.
Proof.
  induction tr as [|t rest IH]; intros pre cm Htr; [done|].
  cbn [length seq foldM record_steps].
  assert (record_at get_build tx (length pre) cm
          = record_instr get_build (tx_id tx) t (head rest) cm) as ->.
  { unfold record_at. rewrite Htr, list_lookup_middle by done.
    f_equal. rewrite lookup_app_r by lia.
    replace (S (length pre) - length pre)%nat with 1%nat by lia.
    by destruct rest. }
  destruct (record_instr get_build (tx_id tx) t (head rest) cm) as [cm1|e]; [|done].
  cbn [mbind result_bind].
  specialize (IH (pre ++ [t]) cm1). rewrite length_app in IH. simpl in IH.
  replace (length pre + 1)%nat with (S (length pre)) in IH by lia.
  apply IH. by rewrite <- app_assoc.
Qed.

Lemma record_tx_steps get_build tx cm :
  record_tx get_build tx cm
  = if receiver tx then record_steps get_build (tx_id tx) (trace tx) cm else Ok cm.
Proof.
  unfold record_tx. destruct (receiver tx); [|done].
  by apply (record_at_steps get_build tx (trace tx) []).
Qed.

Lemma record_steps_invariant get_build (I : gmap string (gmap string (list (string * FnMaps))) -> Prop) r tr :
  (forall t next cm cm', t ∈ tr -> I cm -> record_instr get_build r t next cm = Ok cm' -> I cm') ->
  forall cm cm', I cm -> record_steps get_build r tr cm = Ok cm' -> I cm'.
Proof.
  induction tr as [|t rest IH]; intros Hstep cm cm' Hcm; simpl.
  - by intros [= <-].
  - destruct (record_instr get_build r t (head rest) cm) as [cm1|e] eqn:E; simpl; [|done].
    apply IH.
    + intros t' next s s' Ht'. apply Hstep. by right.
    + eapply Hstep; [by left|exact Hcm|exact E].
Qed.

(** ** Relations kept by every step *)

Section Lift.

Variable get_build : string -> gmap string (list (string * FnMaps)).
Variable R : FnMaps -> FnMaps -> Prop.
Hypothesis R_refl : forall m, R m m.
Hypothesis R_trans : forall m1 m2 m3, R m1 m2 -> R m2 m3 -> R m1 m3.
Variable ok : Run -> Prop.
Hypothesis R_act : forall r a m, ok r -> R m (apply_line_act r a m).

Lemma source_rel_refl fns : source_rel R fns fns.
Proof. unfold source_rel. induction fns; constructor; auto. Qed.

Lemma source_rel_trans fns1 fns2 fns3 :
  source_rel R fns1 fns2 -> source_rel R fns2 fns3 -> source_rel R fns1 fns3.
Proof.
  unfold source_rel. intros H12. revert fns3.
  induction H12 as [|kv1 kv2 l1 l2 [Hn12 HR12] _ IH]; intros fns3 H23;
    inversion H23 as [|? kv3 ? l3 [Hn23 HR23] Hrest]; subst; constructor.
  - split; [congruence|]. by eapply R_trans.
  - by apply IH.
Qed.

Lemma contract_rel_refl c : contract_rel R c c.
Proof.
  intros src. destruct (c !! src); constructor. apply source_rel_refl.
Qed.

Lemma contract_rel_trans c1 c2 c3 :
  contract_rel R c1 c2 -> contract_rel R c2 c3 -> contract_rel R c1 c3.
Proof.
  intros H12 H23 src. specialize (H12 src). specialize (H23 src).
  destruct H12 as [fns1 fns2 H12|]; inversion H23 as [? fns3 H23'|]; subst;
    constructor. by eapply source_rel_trans.
Qed.

Lemma source_rel_alter k f fns :
  (forall m, R m (f m)) -> source_rel R fns (alter (prod_map id f) k fns).
Proof.
  intros Hf. revert k.
  induction fns as [|[fname m] fns IH]; intros k; [destruct k; constructor|].
  destruct k as [|k]; constructor.
  - by split; [|apply Hf].
  - apply source_rel_refl.
  - by split.
  - apply IH.
Qed.

Lemma contract_rel_alter src k f c :
  (forall m, R m (f m)) ->
  contract_rel R c (alter (alter (prod_map id f) k) src c).
Proof.
  intros Hf src'. rewrite lookup_alter. case_decide as Hsrc.
  - subst. destruct (c !! src'); simpl; constructor. by apply source_rel_alter.
  - destruct (c !! src'); constructor. apply source_rel_refl.
Qed.

Lemma contract_view_apply_act r a cm name :
  ok r ->
  contract_rel R (contract_view get_build name cm)
                 (contract_view get_build name (apply_act get_build r a cm)).
Proof.
  intros Hr. destruct a as [|name'|name' src k a]; simpl.
  - apply contract_rel_refl.
  - rewrite contract_view_load. apply contract_rel_refl.
  - rewrite contract_view_update_fn. case_decide; [|apply contract_rel_refl].
    apply contract_rel_alter. intros m. by apply R_act.
Qed.

Lemma record_instr_rel r t next cm cm' :
  ok r -> record_instr get_build r t next cm = Ok cm' ->
  forall name, contract_rel R (contract_view get_build name cm)
                              (contract_view get_build name cm').
Proof.
  intros Hr. rewrite record_instr_plan.
  destruct (plan get_build r t next cm) as [a|e]; simpl; [|done].
  intros [= <-] name. by apply contract_view_apply_act.
Qed.

Lemma record_tx_rel tx cm cm' :
  ok (tx_id tx) -> record_tx get_build tx cm = Ok cm' ->
  forall name, contract_rel R (contract_view get_build name cm)
                              (contract_view get_build name cm').
Proof.
  intros Hr. rewrite record_tx_steps.
  destruct (receiver tx); [|intros [= <-] name; apply contract_rel_refl].
  apply (record_steps_invariant get_build
           (fun s => forall name, contract_rel R (contract_view get_build name cm)
                                               (contract_view get_build name s))).
  - intros t next s s' _ Hs Hstep name.
    eapply contract_rel_trans; [apply Hs|].
    by eapply record_instr_rel.
  - intros name. apply contract_rel_refl.
Qed.

Lemma record_txs_rel history : forall cm cm',
  Forall (fun tx => ok (tx_id tx)) history ->
  foldM (record_tx get_build) history cm = Ok cm' ->
  forall name, contract_rel R (contract_view get_build name cm)
                              (contract_view get_build name cm').
Proof.
  induction history as [|tx history IH]; intros cm cm' Hok; simpl.
  - intros [= <-] name. apply contract_rel_refl.
  - destruct (record_tx get_build tx cm) as [cm1|e] eqn:E; simpl; [|done].
    intros Hrest name. inversion Hok as [|? ? Htx Hh]; subst.
    eapply contract_rel_trans; [by eapply record_tx_rel|].
    by apply IH.
Qed.

End Lift.

(** ** Recording only adds runs *)

Lemma Forall2_alter_grow {A} (Q : A -> A -> Prop) (f : A -> A) xs i :
  (forall x, Q x x) -> (forall x, Q x (f x)) -> Forall2 Q xs (alter f i xs).
Proof.
  intros Hrefl Hf.
  assert (forall ys : list A, Forall2 Q ys ys) as Hall.
  { intros ys. induction ys; constructor; auto. }
  revert i. induction xs as [|x xs IH]; intros i; [destruct i; constructor|].
  destruct i as [|i]; constructor; auto.
Qed.

Lemma line_le_refl ln : line_le ln ln.
Proof. by repeat split. Qed.

Lemma line_le_trans ln1 ln2 ln3 : line_le ln1 ln2 -> line_le ln2 ln3 -> line_le ln1 ln3.
Proof.
  intros (? & ? & ? & ? & ?) (? & ? & ? & ? & ?).
  repeat split; try congruence; set_solver.
Qed.

Lemma fn_le_refl m : fn_le m m.
Proof.
  repeat split; [done|]. induction (line m); constructor; auto using line_le_refl.
Qed.

Lemma Forall2_trans_gen {A} (Q : A -> A -> Prop) xs ys zs :
  (forall x y z, Q x y -> Q y z -> Q x z) ->
  Forall2 Q xs ys -> Forall2 Q ys zs -> Forall2 Q xs zs.
Proof.
  intros Htrans H12. revert zs.
  induction H12; intros zs H23; inversion H23; subst; constructor; eauto.
Qed.

Lemma fn_le_trans m1 m2 m3 : fn_le m1 m2 -> fn_le m2 m3 -> fn_le m1 m3.
Proof.
  intros (? & ? & ? & H12) (? & ? & ? & H23).
  repeat split; try congruence; [set_solver|].
  eapply Forall2_trans_gen; [apply line_le_trans|exact H12|exact H23].
Qed.

Lemma line_le_add_marks d ln : line_le ln (add_marks d ln).
Proof. unfold line_le, add_marks, line_hit, line_true, line_false. simpl. set_solver. Qed.

Lemma fn_le_apply_line_act r a m : fn_le m (apply_line_act r a m).
Proof.
  assert (forall l d, fn_le m (add_fn_tx r (update_line l (add_marks d) m))) as Hupd.
  { intros l d. repeat split; simpl; [set_solver|].
    apply Forall2_alter_grow; [apply line_le_refl|apply line_le_add_marks]. }
  destruct a; simpl; try apply Hupd.
  repeat split; simpl; [set_solver|]. apply fn_le_refl.
Qed.

(** X1.  Recording never changes the skeleton of the coverage map and never
    removes a run: after any history, every contract (loaded or still to be
    loaded) has the source files, function names, pc sets, jumps and totals
    it had before, and each run set contains what it contained. *)
Theorem recording_only_adds_runs
    (get_build : string -> gmap string (list (string * FnMaps)))
    (history : list Tx)
    (cm cm' : gmap string (gmap string (list (string * FnMaps)))) :
  foldM (record_tx get_build) history cm = Ok cm' ->
  (forall name, contract_rel fn_le (contract_view get_build name cm)
                                   (contract_view get_build name cm')) ∧
  (forall name c', cm' !! name = Some c' ->
                   contract_rel fn_le (contract_view get_build name cm) c').
Proof.
  intros Hrec.
  assert (forall name, contract_rel fn_le (contract_view get_build name cm)
                                          (contract_view get_build name cm')) as Hall.
  { apply (record_txs_rel get_build fn_le fn_le_refl fn_le_trans (fun _ => True)
             (fun r a m _ => fn_le_apply_line_act r a m) history cm cm'); [|done].
    by apply Forall_forall. }
  split; [done|]. intros name c' Hc'. specialize (Hall name).
  unfold contract_view at 2 in Hall. by rewrite Hc' in Hall.
Qed.

Lemma line_same_for_refl r ln : line_same_for r ln ln.
Proof. by repeat split. Qed.

Lemma fn_same_for_refl r m : fn_same_for r m m.
Proof.
  split; [done|]. induction (line m); constructor; auto using line_same_for_refl.
Qed.

Lemma fn_same_for_trans r m1 m2 m3 :
  fn_same_for r m1 m2 -> fn_same_for r m2 m3 -> fn_same_for r m1 m3.
Proof.
  intros [H12 L12] [H23 L23]. split; [by rewrite H23|].
  eapply Forall2_trans_gen; [|exact L12|exact L23].
  intros x y z (Ha & Hb & Hc) (Ha' & Hb' & Hc').
  repeat split; intros; try tauto.
Qed.

Lemma marks_of_only r a r' :
  r' ≠ r ->
  (r' ∉ hit_runs (marks_of r a)) ∧ (r' ∉ true_runs (marks_of r a)) ∧
  (r' ∉ false_runs (marks_of r a)).
Proof. intros Hne. destruct a as [| | |l []]; simpl; set_solver. Qed.

Lemma fn_same_for_apply_line_act r0 r a m :
  r ≠ r0 -> fn_same_for r0 m (apply_line_act r a m).
Proof.
  intros Hne.
  assert (r0 ∈ {[r]} ∪ fn_tx m <-> r0 ∈ fn_tx m) as Htx by set_solver.
  assert (forall l, fn_same_for r0 m
                      (add_fn_tx r (update_line l (add_marks (marks_of r a)) m))) as Hupd.
  { intros l. split; [done|]. simpl.
    apply Forall2_alter_grow; [apply line_same_for_refl|].
    intros ln. destruct (marks_of_only r a r0) as (Hh & Ht & Hf); [done|].
    unfold line_same_for, add_marks, line_hit, line_true, line_false. simpl.
    set_solver. }
  destruct a; simpl; try apply Hupd.
  split; [done|]. apply (fn_same_for_refl r0 m).
Qed.

(** X2.  A transaction records nothing but its own identifier: a run that
    is not the identifier of a transaction of the history is, after the
    history, in exactly the sets it was in before. *)
Theorem recording_leaves_other_runs
    (get_build : string -> gmap string (list (string * FnMaps)))
    (history : list Tx)
    (cm cm' : gmap string (gmap string (list (string * FnMaps)))) (r : nat) :
  r ∉ tx_id <$> history ->
  foldM (record_tx get_build) history cm = Ok cm' ->
  forall name, contract_rel (fn_same_for r) (contract_view get_build name cm)
                                            (contract_view get_build name cm').
Proof.
  intros Hr Hrec.
  apply (record_txs_rel get_build (fn_same_for r) (fn_same_for_refl r)
           (fn_same_for_trans r) (fun r' => r' ≠ r)
           (fun r' a m Hne => fn_same_for_apply_line_act r r' a m Hne)
           history cm cm'); [|done].
  apply Forall_forall. intros tx Htx Heq. apply Hr.
  apply list_elem_of_fmap. eauto.
Qed.

(** ** Which contracts are loaded *)

Lemma dom_load get_build name (cm : gmap string (gmap string (list (string * FnMaps)))) :
  dom (load get_build name cm) = {[name]} ∪ dom cm.
Proof.
  unfold load. destruct (cm !! name) eqn:E.
  - apply elem_of_dom_2 in E. set_solver.
  - by rewrite dom_insert_L.
Qed.

Lemma dom_record_instr get_build r t next cm cm' :
  record_instr get_build r t next cm = Ok cm' ->
  dom cm' = dom cm ∪ instr_contract t.
Proof.
  rewrite record_instr_plan. unfold plan, instr_contract.
  case_bool_decide; simpl.
  { intros [= <-]. set_solver. }
  destruct (contract_view get_build (contractName t) cm !! source t) as [fns|];
    [|done].
  destruct (list_find _ fns) as [[k [fname m]]|]; simpl.
  - destruct (plan_in_fn r t next m) as [a|e]; simpl; [|done].
    intros [= <-]. unfold update_fn. rewrite dom_alter_L, dom_load. set_solver.
  - intros [= <-]. rewrite dom_load. set_solver.
Qed.

Lemma dom_record_steps get_build r tr : forall cm cm',
  record_steps get_build r tr cm = Ok cm' ->
  dom cm' = dom cm ∪ ⋃ (instr_contract <$> tr).
Proof.
  induction tr as [|t rest IH]; intros cm cm'; simpl.
  - intros [= <-]. set_solver.
  - destruct (record_instr get_build r t (head rest) cm) as [cm1|e] eqn:E; simpl; [|done].
    intros Hrest. apply IH in Hrest. apply dom_record_instr in E.
    rewrite Hrest, E. set_solver.
Qed.

Lemma dom_record_txs get_build history : forall cm cm',
  foldM (record_tx get_build) history cm = Ok cm' ->
  dom cm' = dom cm ∪ history_contracts history.
Proof.
  induction history as [|tx history IH]; intros cm cm'; simpl.
  - intros [= <-]. unfold history_contracts. simpl. set_solver.
  - destruct (record_tx get_build tx cm) as [cm1|e] eqn:E; simpl; [|done].
    intros Hrest. apply IH in Hrest. rewrite Hrest.
    assert (dom cm1 = dom cm ∪ tx_contracts tx) as ->.
    { rewrite record_tx_steps in E. unfold tx_contracts.
      destruct (receiver tx).
      - by eapply dom_record_steps.
      - injection E as <-. set_solver. }
    unfold history_contracts. simpl. set_solver.
Qed.

(** X3.  The contracts of the coverage map after a history are those it
    had plus exactly the contracts named by a step that has both a contract
    name and a source file, in a transaction that has a receiver, whether or
    not the step could be attributed to a function. *)
Theorem loaded_contracts_are_the_named_ones
    (get_build : string -> gmap string (list (string * FnMaps)))
    (history : list Tx)
    (cm cm' : gmap string (gmap string (list (string * FnMaps)))) :
  foldM (record_tx get_build) history cm = Ok cm' ->
  dom cm' = dom cm ∪ history_contracts history.
Proof. apply dom_record_txs. Qed.

(** X4.  A transaction without a receiver, or none of whose steps has both
    a contract name and a source file, leaves the coverage map as it is and
    cannot make recording fail. *)
Theorem irrelevant_transaction_changes_nothing
    (get_build : string -> gmap string (list (string * FnMaps)))
    (tx : Tx) (cm : gmap string (gmap string (list (string * FnMaps)))) :
  receiver tx = false ∨
  Forall (fun t => contractName t = EmptyString ∨ source t = EmptyString) (trace tx) ->
  record_tx get_build tx cm = Ok cm.
Proof.
  rewrite record_tx_steps. intros [->|Hall]; [done|].
  destruct (receiver tx); [|done].
  induction Hall as [|t rest Ht _ IH]; simpl; [done|].
  unfold record_instr at 1. rewrite bool_decide_eq_true_2 by done. simpl. apply IH.
Qed.

(** X5.  A step raises in exactly two situations: [KeyError] when it has a
    contract name and a source file but the contract's map has no entry for
    that source file, and [IndexError] when it is a conditional jump with no
    step after it, found on a line that the run has already hit. *)
Theorem step_raises_exactly_when
    (get_build : string -> gmap string (list (string * FnMaps)))
    (r : nat) (t : Instr) (next : option Instr)
    (cm : gmap string (gmap string (list (string * FnMaps)))) (e : PyExc) :
  record_instr get_build r t next cm = Raise e <->
  contractName t ≠ EmptyString ∧ source t ≠ EmptyString ∧
  ((e = KeyError ∧
    contract_view get_build (contractName t) cm !! source t = None)
   ∨ (e = IndexError ∧ next = None ∧ op t = "JUMPI"%string ∧
      exists fns k fname m l ln,
        contract_view get_build (contractName t) cm !! source t = Some fns ∧
        list_find (fun kv : string * FnMaps => pc t ∈ fn_pc kv.2) fns
          = Some (k, (fname, m)) ∧
        list_find (jump_is (pc t)) (line m) = Some (l, ln) ∧
        r ∈ line_hit ln)).
Proof.
  rewrite record_instr_plan. unfold plan.
  case_bool_decide as Hskip; simpl.
  { split; [done|]. intros (? & ? & _). tauto. }
  assert (contractName t ≠ EmptyString ∧ source t ≠ EmptyString) as [Hn Hs].
  { split; intros Heq; apply Hskip; auto. }
  destruct (contract_view get_build (contractName t) cm !! source t) as [fns|] eqn:Hfns.
  2:{ split.
      - intros [= <-]. split_and!; [done..|]. by left.
      - intros (_ & _ & [[-> _]|(_ & _ & _ & (? & ? & ? & ? & ? & ? & ? & _))]);
          [done|congruence]. }
  destruct (list_find _ fns) as [[k [fname m]]|] eqn:Hfn; simpl.
  2:{ split; [done|].
      intros (_ & _ & [[_ ?]|(_ & _ & _ & (? & ? & ? & ? & ? & ? & ? & ? & _))]);
        congruence. }
  unfold plan_in_fn. case_bool_decide as Hop; simpl.
  { destruct (list_find _ (line m)) as [[l ln]|]; simpl; (split; [done|]);
      intros (_ & _ & [[_ ?]|(_ & _ & ? & _)]); congruence. }
  destruct (list_find (jump_is (pc t)) (line m)) as [[l ln]|] eqn:Hln; simpl.
  2:{ split; [done|].
      intros (_ & _ & [[_ ?]|(_ & _ & _ & (? & ? & ? & ? & ? & ? & ? & ? & ? & _))]);
        congruence. }
  case_bool_decide as Hr; simpl.
  { split; [done|].
    intros (_ & _ & [[_ ?]|(_ & _ & _ & (fns' & k' & fname' & m' & l' & ln' & H1 & H2 & H3 & H4))]);
      [congruence|]. by simplify_eq. }
  destruct next as [t'|]; simpl.
  { split; [done|]. intros (_ & _ & [[_ ?]|(_ & ? & _)]); congruence. }
  split.
  - intros [= <-]. split_and!; [done..|]. right. split_and!; [done..| |].
    + by destruct (decide (op t = "JUMPI"%string)).
    + exists fns, k, fname, m, l, ln. by destruct (decide (r ∈ line_hit ln)).
  - intros (_ & _ & [[_ ?]|(-> & _)]); [congruence|done].
Qed.

(** X6.  After any history, every run that hit a line of a function is in
    the function's own run set, provided the loader's maps are so (a fresh
    map has no run sets): the evaluator's test of the function-level set
    never hides a line that was hit. *)
Theorem hit_runs_within_function_runs
    (get_build : string -> gmap string (list (string * FnMaps)))
    (history : list Tx)
    (cm : gmap string (gmap string (list (string * FnMaps)))) :
  (forall name, contract_Forall hit_in_fn (get_build name)) ->
  record_history get_build history = Ok cm ->
  cm_Forall hit_in_fn cm.
Proof.
  intros Hbuild.
  apply (record_history_Forall get_build hit_in_fn Hbuild record_in_fn_hit_in_fn).
Qed.

(** * Further properties of the evaluator *)

(** ** The scoring loop, line by line *)

Lemma size_eqb_empty_iff (X : gset nat) : (size X =? 0)%nat = bool_decide (X = ∅).
Proof.
  case_bool_decide as HX.
  - subst. by rewrite size_empty.
  - by apply size_eqb_nonempty.
Qed.

Lemma score_line_cover c ln count cov :
  score_line c (count_line ln) (count, cov)
  = Ok (count + line_units ln, add_cover c (line_cover ln) cov).
Proof.
  unfold score_line, count_line, line_units, line_cover, line_weight, branching,
    line_hit, line_true, line_false, setdefault_marks.
  destruct (ln_marks ln) as [mk|]; simpl.
  2:{ rewrite bool_decide_eq_true_2 by done. simpl. by rewrite Z.add_0_r. }
  rewrite size_eqb_empty_iff.
  case_bool_decide as Hhit; simpl; [by rewrite Z.add_0_r|].
  destruct (truthy_pc (ln_jump ln)) eqn:Hj; simpl.
  - rewrite !size_eqb_empty_iff.
    destruct (bool_decide (true_runs mk = ∅)), (bool_decide (false_runs mk = ∅));
      simpl; by rewrite ?Z.add_0_r, <- ?Z.add_assoc.
  - by rewrite Hj.
Qed.

Lemma cov_of_add_cover s c s' cov i :
  listed s ->
  i ∈ cov_of s (add_cover c s' cov) <-> i ∈ cov_of s cov ∨ (i = c ∧ s' = s).
Proof.
  intros [->|[->| ->]]; destruct s'; simpl; set_solver.
Qed.

Lemma score_lines_cover ls : forall c0 count cov,
  exists cov',
    score_lines c0 (count_line <$> ls) (count, cov) = Ok (count + units_sum ls, cov') ∧
    forall s i, listed s ->
      (i ∈ cov_of s cov' <->
       i ∈ cov_of s cov ∨
       exists k ln, i = (c0 + k)%nat ∧ ls !! k = Some ln ∧ line_cover ln = s).
Proof.
  induction ls as [|ln ls IH]; intros c0 count cov.
  - exists cov. simpl. split; [by rewrite Z.add_0_r|].
    intros s i _. split; [by left|]. intros [?|(k & ln & _ & Hk & _)]; [done|].
    by rewrite lookup_nil in Hk.
  - rewrite fmap_cons. cbn [score_lines units_sum foldr].
    rewrite score_line_cover. cbn [mbind result_bind].
    fold (units_sum ls).
    destruct (IH (S c0) (count + line_units ln) (add_cover c0 (line_cover ln) cov))
      as (cov' & -> & Hcov').
    exists cov'. split; [f_equal; f_equal; lia|].
    intros s i Hs. rewrite (Hcov' s i Hs), (cov_of_add_cover s c0 _ cov i Hs).
    split.
    + intros [[?|[-> <-]]|(k & ln' & -> & Hk & Hc)].
      * by left.
      * right. exists 0%nat, ln. split; [lia|done].
      * right. exists (S k), ln'. split; [lia|done].
    + intros [?|(k & ln' & -> & Hk & Hc)]; [by left; left|].
      destruct k as [|k]; simpl in Hk.
      * injection Hk as <-. left. right. split; [lia|done].
      * right. exists k, ln'. split; [lia|done].
Qed.

Lemma score_cover m :
  exists cov,
    score m = Ok (units_sum (line m), cov) ∧
    forall s i, listed s ->
      (i ∈ cov_of s cov <-> exists ln, line m !! i = Some ln ∧ line_cover ln = s).
Proof.
  destruct (score_lines_cover (line m) 0%nat 0 (mkCov ∅ ∅ ∅)) as (cov & Hs & Hcov).
  exists cov. split; [exact Hs|].
  intros s i Hl. rewrite (Hcov s i Hl). split.
  - intros [Hin|(k & ln & -> & Hk & Hc)]; [|eauto].
    destruct Hl as [->|[->| ->]]; simpl in Hin; set_solver.
  - intros (ln & Hi & Hc). right. exists i, ln. done.
Qed.

(** X7.  Branch accounting: the scoring loop always returns, and it lists
    the index of a line in [line] exactly when the line is fully covered
    (hit, and without a jump or with both outcomes observed), in [true]
    exactly when it has a jump, was hit and only the true outcome was
    observed, and in [false] exactly when only the false outcome was. *)
Theorem score_lists_lines_by_cover (m : FnMaps) :
  exists count cov,
    score m = Ok (count, cov) ∧
    forall i,
      (i ∈ cov_line cov <-> exists ln, line m !! i = Some ln ∧ line_cover ln = Full) ∧
      (i ∈ cov_true cov <-> exists ln, line m !! i = Some ln ∧ line_cover ln = OnlyTrue) ∧
      (i ∈ cov_false cov <-> exists ln, line m !! i = Some ln ∧ line_cover ln = OnlyFalse).
Proof.
  destruct (score_cover m) as (cov & Hs & Hcov).
  exists (units_sum (line m)), cov. split; [done|].
  intros i. split_and!.
  - apply (Hcov Full). by left.
  - apply (Hcov OnlyTrue). by right; left.
  - apply (Hcov OnlyFalse). by right; right.
Qed.

Lemma line_units_bounds ln :
  0 <= line_units ln <= line_weight ln ∧
  (line_units ln = line_weight ln <-> line_cover ln = Full).
Proof.
  unfold line_units, line_weight, line_cover.
  destruct (bool_decide (line_hit ln = ∅)), (branching ln),
    (bool_decide (line_true ln = ∅)), (bool_decide (line_false ln = ∅));
    simpl; (split; [lia|]); split; (done || lia).
Qed.

Lemma units_sum_bounds ls :
  0 <= units_sum ls <= weight_sum ls ∧
  (units_sum ls = weight_sum ls <-> Forall (fun ln => line_cover ln = Full) ls).
Proof.
  induction ls as [|ln ls [IHb IHe]]; simpl.
  - split; [lia|]. split; [by constructor|done].
  - destruct (line_units_bounds ln) as [Hb He]. split; [lia|].
    rewrite Forall_cons, <- He, <- IHe. lia.
Qed.

(** X8.  The score of a function is the sum over its lines of the units
    each contributes (0 for a line never hit or hit with no outcome, 1 for a
    single outcome, the full weight otherwise); it lies between 0 and the
    sum of the line weights, and reaches that sum exactly when every line is
    fully covered. *)
Theorem score_is_sum_of_line_units (m : FnMaps) :
  exists cov,
    score m = Ok (units_sum (line m), cov) ∧
    0 <= units_sum (line m) <= weight_sum (line m) ∧
    (units_sum (line m) = weight_sum (line m) <->
     Forall (fun ln => line_cover ln = Full) (line m)).
Proof.
  destruct (score_cover m) as (cov & Hs & _). exists cov.
  split; [done|]. apply units_sum_bounds.
Qed.

(** ** The result of a function *)

Lemma no_count_iff_unhit ls :
  forallb (fun cl => (c_count cl =? 0)%nat) (count_line <$> ls) = true
  <-> Forall (fun ln => line_hit ln = ∅) ls.
Proof.
  rewrite forallb_forall, Forall_forall. split.
  - intros H ln Hln.
    assert (In (count_line ln) (count_line <$> ls)) as Hin.
    { apply list_elem_of_In, list_elem_of_fmap. eauto. }
    apply H in Hin. rewrite count_line_count, size_eqb_empty_iff in Hin.
    by apply bool_decide_eq_true in Hin.
  - intros H cl Hcl.
    apply list_elem_of_In, list_elem_of_fmap in Hcl as (ln & -> & Hln).
    rewrite count_line_unhit; [done|]. by apply H.
Qed.

(** The evaluator of a function, case by case. *)
Lemma evaluate_fn_cases m :
  exists cov,
    score m = Ok (units_sum (line m), cov) ∧
    evaluate_fn m =
      if bool_decide (fn_tx m = ∅) then Ok pct_zero
      else if bool_decide (Forall (fun ln => line_hit ln = ∅) (line m)) then Ok pct_zero
      else if bool_decide (total m = 0) then Raise ZeroDivisionError
      else if bool_decide (units_sum (line m) = total m) then Ok pct_one
      else Ok (Detail cov (round2 (units_sum (line m)) (total m))).
Proof.
  destruct (score_cover m) as (cov & Hs & _). exists cov. split; [done|].
  unfold evaluate_fn. case_bool_decide; [done|].
  destruct (forallb _ _) eqn:Hall.
  - apply no_count_iff_unhit in Hall. by rewrite bool_decide_eq_true_2.
  - rewrite bool_decide_eq_false_2.
    2:{ intros HF. apply no_count_iff_unhit in HF. congruence. }
    fold (score m). rewrite Hs. simpl.
    destruct (Z.eqb_spec (total m) 0) as [Hz|Hz].
    + by rewrite bool_decide_eq_true_2.
    + rewrite bool_decide_eq_false_2 by done.
      destruct (Z.eqb_spec (units_sum (line m)) (total m)) as [He|He].
      * by rewrite bool_decide_eq_true_2.
      * by rewrite bool_decide_eq_false_2.
Qed.

(** X9.  The three index sets of a result are pairwise disjoint and hold
    only indices of lines of the function; this is so for the sets of the
    scoring loop and for those of every detailed report. *)
Theorem covered_sets_disjoint_and_in_range (m : FnMaps) :
  (exists count cov,
     score m = Ok (count, cov) ∧
     cov_line cov ## cov_true cov ∧ cov_line cov ## cov_false cov ∧
     cov_true cov ## cov_false cov ∧
     forall i, in_cov i cov -> (i < length (line m))%nat) ∧
  (forall cov p,
     evaluate_fn m = Ok (Detail cov p) ->
     cov_line cov ## cov_true cov ∧ cov_line cov ## cov_false cov ∧
     cov_true cov ## cov_false cov ∧
     forall i, in_cov i cov -> (i < length (line m))%nat).
Proof.
  destruct (score_cover m) as (cov & Hs & Hcov).
  assert (cov_line cov ## cov_true cov ∧ cov_line cov ## cov_false cov ∧
          cov_true cov ## cov_false cov ∧
          forall i, in_cov i cov -> (i < length (line m))%nat) as Hgood.
  { pose proof (fun i => Hcov Full i ltac:(by left)) as HF.
    pose proof (fun i => Hcov OnlyTrue i ltac:(by right; left)) as HT.
    pose proof (fun i => Hcov OnlyFalse i ltac:(by right; right)) as HN.
    simpl in HF, HT, HN.
    split_and!.
    - intros i [ln [Hi Hc]]%HF [ln' [Hi' Hc']]%HT. congruence.
    - intros i [ln [Hi Hc]]%HF [ln' [Hi' Hc']]%HN. congruence.
    - intros i [ln [Hi Hc]]%HT [ln' [Hi' Hc']]%HN. congruence.
    - intros i [Hin|[Hin|Hin]];
        [apply HF in Hin|apply HT in Hin|apply HN in Hin];
        destruct Hin as (ln & Hi & _); by eapply lookup_lt_Some. }
  split; [by exists (units_sum (line m)), cov|].
  intros cov' p. destruct (evaluate_fn_cases m) as (cov2 & Hs2 & ->).
  rewrite Hs in Hs2. injection Hs2 as <-.
  repeat case_bool_decide; try done. by intros [= <- _].
Qed.

(** X10.  The evaluator of a function raises in exactly one situation:
    [ZeroDivisionError], when [total] is 0 although the function has a run
    and some line was hit. *)
Theorem evaluate_fn_raises_exactly_when (m : FnMaps) (e : PyExc) :
  evaluate_fn m = Raise e <->
  e = ZeroDivisionError ∧ total m = 0 ∧ fn_tx m ≠ ∅ ∧
  Exists (fun ln => line_hit ln ≠ ∅) (line m).
Proof.
  destruct (evaluate_fn_cases m) as (cov & _ & ->).
  rewrite Exists_exists.
  case_bool_decide as Hfn; [split; [done|tauto]|].
  case_bool_decide as Hall.
  { split; [done|]. intros (_ & _ & _ & ln & Hln & Hhit).
    rewrite Forall_forall in Hall. destruct Hhit. by apply Hall. }
  case_bool_decide as Htot.
  - split; [|by intros (-> & _)]. intros [= <-]. split_and!; [done..|].
    apply not_Forall_Exists in Hall; [|intros ln; apply _].
    by apply Exists_exists in Hall.
  - case_bool_decide; (split; [done|tauto]).
Qed.

(** X11.  The result is exactly [{'pct': 0}] when, and only when, the
    function has no run or none of its lines was hit. *)
Theorem pct_zero_exactly_when_unhit (m : FnMaps) :
  evaluate_fn m = Ok pct_zero <->
  fn_tx m = ∅ ∨ Forall (fun ln => line_hit ln = ∅) (line m).
Proof.
  destruct (evaluate_fn_cases m) as (cov & _ & ->).
  case_bool_decide as Hfn; [split; [by left|done]|].
  case_bool_decide as Hall; [split; [by right|done]|].
  split; [|tauto].
  repeat case_bool_decide; done.
Qed.

Lemma weight_sum_pos ls : ls ≠ [] -> 0 < weight_sum ls.
Proof.
  destruct ls as [|ln ls]; [done|]. intros _. simpl.
  pose proof (proj1 (units_sum_bounds ls)).
  unfold line_weight. destruct (branching ln); lia.
Qed.

Lemma line_cover_Full_hit ln : line_cover ln = Full -> line_hit ln ≠ ∅.
Proof. unfold line_cover. by case_bool_decide. Qed.

(** X12.  For a function whose [total] is the sum of its line weights, in a
    state the recorder can reach (a run that hit a line is in the function's
    run set): the result is [{'pct': 1}] when, and only when, the function
    has at least one line and every line is fully covered. *)
Theorem pct_one_exactly_when_fully_covered (m : FnMaps) :
  total m = weight_sum (line m) -> hit_in_fn m ->
  (evaluate_fn m = Ok pct_one <->
   line m ≠ [] ∧ Forall (fun ln => line_cover ln = Full) (line m)).
Proof.
  intros Htot Hinv.
  destruct (evaluate_fn_cases m) as (cov & _ & ->).
  destruct (units_sum_bounds (line m)) as [Hb Heq].
  split.
  - case_bool_decide as Hfn; [done|].
    case_bool_decide as Hall; [done|].
    case_bool_decide as Hz; [done|].
    case_bool_decide as Hsum; [|done]. intros _. split.
    + intros Hnil. apply Hall. rewrite Hnil. constructor.
    + apply Heq. congruence.
  - intros [Hne Hfull].
    destruct (line m) as [|ln ls] eqn:Hline; [done|].
    assert (line_hit ln ≠ ∅) as Hhit.
    { apply line_cover_Full_hit. by inversion Hfull. }
    assert (fn_tx m ≠ ∅) as Hfn.
    { unfold hit_in_fn in Hinv. rewrite Hline in Hinv.
      inversion Hinv as [|? ? Hsub _]; subst. set_solver. }
    rewrite bool_decide_eq_false_2 by done.
    rewrite bool_decide_eq_false_2.
    2:{ intros Hall. by inversion Hall. }
    pose proof (weight_sum_pos (ln :: ls) ltac:(done)) as Hpos.
    rewrite bool_decide_eq_false_2 by lia.
    rewrite bool_decide_eq_true_2; [done|].
    rewrite Htot. by apply Heq.
Qed.

Lemma div_half_even_bounds n d K :
  0 < d -> 0 <= n <= K * d -> 0 <= div_half_even n d <= K.
Proof.
  intros Hd Hn. unfold div_half_even.
  pose proof (Z.div_mod n d ltac:(lia)) as Hdm.
  pose proof (Z.mod_pos_bound n d Hd) as Hm.
  assert (0 <= n / d) by (apply Z.div_pos; lia).
  assert (n / d <= K) by (apply Z.div_le_upper_bound; lia).
  assert (n / d = K -> n mod d = 0) by nia.
  destruct (2 * (n mod d) <? d) eqn:E1; [lia|].
  apply Z.ltb_ge in E1.
  destruct (d <? 2 * (n mod d)) eqn:E2; [lia|].
  destruct (Z.even (n / d)); lia.
Qed.

Lemma float_exponent_neg n d : 0 < n <= d -> float_exponent n d < 0.
Proof.
  intros Hnd. unfold float_exponent.
  pose proof (Z.log2_le_mono n d ltac:(lia)).
  destruct (if 0 <=? Z.log2 n - Z.log2 d then _ else _); lia.
Qed.

Lemma round2_bounds count total :
  0 < total -> 0 <= count <= total -> 0 <= round2 count total <= 100.
Proof.
  intros Ht Hc. unfold round2.
  destruct (count =? 0) eqn:E0; [lia|]. apply Z.eqb_neq in E0.
  rewrite !Z.sgn_pos, !Z.abs_eq, !Z.mul_1_l by lia.
  unfold float_div, float_round2.
  pose proof (float_exponent_neg count total ltac:(lia)) as He.
  rewrite !(proj2 (Z.leb_gt 0 (float_exponent count total))) by done.
  set (p := 2 ^ (- float_exponent count total)).
  assert (0 < p) by (apply Z.pow_pos_nonneg; lia).
  pose proof (div_half_even_bounds (count * p) total p Ht ltac:(nia)) as Hm.
  apply div_half_even_bounds; [done|]. nia.
Qed.

(** X13.  For a function whose [total] is the sum of its line weights the
    evaluator always returns, and the percentage it reports lies between 0
    and 1 (0 and 100 hundredths). *)
Theorem pct_between_zero_and_one (m : FnMaps) :
  total m = weight_sum (line m) ->
  exists rep, evaluate_fn m = Ok rep ∧ 0 <= report_pct rep <= 100.
Proof.
  intros Htot.
  destruct (evaluate_fn_cases m) as (cov & _ & ->).
  destruct (units_sum_bounds (line m)) as [Hb _].
  case_bool_decide as Hfn; [by exists pct_zero|].
  case_bool_decide as Hall; [by exists pct_zero|].
  assert (0 < total m) as Hpos.
  { rewrite Htot. apply weight_sum_pos. intros Hnil. apply Hall.
    rewrite Hnil. constructor. }
  rewrite bool_decide_eq_false_2 by lia.
  case_bool_decide; [by exists pct_one|].
  eexists. split; [done|]. simpl. apply round2_bounds; lia.
Qed.

(** ** More runs, no lower score *)

Lemma line_le_cover ln ln' :
  line_le ln ln' ->
  line_units ln <= line_units ln' ∧
  (line_cover ln = Full -> line_cover ln' = Full) ∧
  (listed (line_cover ln) -> listed (line_cover ln')).
Proof.
  intros (_ & Hj & Hh & Ht & Hf).
  unfold line_units, line_weight, line_cover, listed, branching. rewrite Hj.
  destruct (truthy_pc (ln_jump ln));
    repeat case_bool_decide; simpl;
    split_and!; try lia; try done; try tauto; try set_solver.
Qed.

Lemma units_sum_mono ls ls' :
  Forall2 line_le ls ls' -> units_sum ls <= units_sum ls'.
Proof.
  induction 1 as [|ln ln' ls ls' Hle _ IH]; simpl; [lia|].
  destruct (line_le_cover ln ln' Hle) as [Hu _]. lia.
Qed.

(** X14.  Recording more transactions never lowers the score of a function:
    after any further history its score is at least what it was, every line
    that was fully covered still is, and every line listed in one of the
    three sets is still listed in one of them. *)
Theorem recording_never_lowers_score
    (get_build : string -> gmap string (list (string * FnMaps)))
    (history : list Tx)
    (cm cm' : gmap string (gmap string (list (string * FnMaps))))
    (name src : string) (fns : list (string * FnMaps)) (k : nat)
    (fname : string) (m : FnMaps) :
  foldM (record_tx get_build) history cm = Ok cm' ->
  contract_view get_build name cm !! src = Some fns ->
  fns !! k = Some (fname, m) ->
  exists fns' m' count cov count' cov',
    contract_view get_build name cm' !! src = Some fns' ∧
    fns' !! k = Some (fname, m') ∧
    score m = Ok (count, cov) ∧ score m' = Ok (count', cov') ∧
    count <= count' ∧
    cov_line cov ⊆ cov_line cov' ∧
    (forall i, in_cov i cov -> in_cov i cov').
Proof.
  intros Hrec Hfns Hk.
  pose proof (record_txs_rel get_build fn_le fn_le_refl fn_le_trans (fun _ => True)
                (fun r a m _ => fn_le_apply_line_act r a m) history cm cm'
                ltac:(by apply Forall_forall) Hrec name src) as Hrel.
  rewrite Hfns in Hrel. inversion Hrel as [? fns' Hsrc Heq1 Heq2|]; subst.
  destruct (Forall2_lookup_l _ _ _ _ _ Hsrc Hk) as ([fname' m'] & Hk' & Hname & Hle).
  simpl in Hname, Hle. subst fname'.
  destruct Hle as (_ & _ & _ & Hlines).
  destruct (score_cover m) as (cov & Hs & Hcov).
  destruct (score_cover m') as (cov' & Hs' & Hcov').
  exists fns', m', (units_sum (line m)), cov, (units_sum (line m')), cov'.
  assert (forall s i, listed s -> i ∈ cov_of s cov ->
            exists ln ln', line m !! i = Some ln ∧ line m' !! i = Some ln' ∧
                           line_cover ln = s ∧ line_le ln ln') as Hstep.
  { intros s i Hl Hin. apply (Hcov s i Hl) in Hin as (ln & Hi & Hc).
    destruct (Forall2_lookup_l _ _ _ _ _ Hlines Hi) as (ln' & Hi' & Hle).
    eauto 10. }
  split_and!; [done..|by apply units_sum_mono| |].
  - intros i Hin.
    destruct (Hstep Full i ltac:(by left) Hin) as (ln & ln' & _ & Hi' & Hc & Hle).
    apply (Hcov' Full i ltac:(by left)). exists ln'. split; [done|].
    by apply (line_le_cover ln ln' Hle).
  - intros i Hin.
    assert (exists s, listed s ∧ i ∈ cov_of s cov) as (s & Hl & Hs0).
    { destruct Hin as [?|[?|?]];
        [exists Full|exists OnlyTrue|exists OnlyFalse]; unfold listed; auto. }
    destruct (Hstep s i Hl Hs0) as (ln & ln' & _ & Hi' & Hc & Hle).
    destruct (line_le_cover ln ln' Hle) as (_ & _ & Hlisted).
    rewrite Hc in Hlisted. specialize (Hlisted Hl).
    assert (i ∈ cov_of (line_cover ln') cov') as Hin'.
    { apply (Hcov' _ i Hlisted). eauto. }
    unfold in_cov. destruct Hlisted as [HH|[HH|HH]]; rewrite HH in Hin'; simpl in Hin'; auto.
Qed.

(** ** The report as a whole *)

Lemma forM_Forall2 {A B} (f : A -> result B) xs : forall ys,
  forM f xs = Ok ys -> Forall2 (fun x y => f x = Ok y) xs ys.
Proof.
  induction xs as [|x xs IH]; intros ys; simpl.
  - intros [= <-]. constructor.
  - destruct (f x) as [y|e] eqn:Hy; simpl; [|done].
    destruct (forM f xs) as [ys'|e]; simpl; [|done].
    intros [= <-]. constructor; [done|]. by apply IH.
Qed.

Lemma dictM_lookup {A B} (f : A -> result B) (m : gmap string A) m' :
  dictM f m = Ok m' ->
  forall k, option_Forall2 (fun x y => f x = Ok y) (m !! k) (m' !! k).
Proof.
  unfold dictM.
  destruct (forM _ (map_to_list m)) as [kvs|e] eqn:Hkvs; simpl; [|done].
  intros [= <-] k.
  apply forM_Forall2 in Hkvs.
  assert (Forall2 (fun (kv : string * A) (kv' : string * B) =>
                     kv'.1 = kv.1 ∧ f kv.2 = Ok kv'.2) (map_to_list m) kvs) as Hall.
  { eapply Forall2_impl; [exact Hkvs|]. intros [k1 x] [k2 y]; simpl.
    destruct (f x); simpl; [|done]. by intros [= <- <-]. }
  assert (kvs.*1 = (map_to_list m).*1) as Hkeys.
  { clear Hkvs. induction Hall as [|? ? ? ? [H1 _] _ IH]; [done|].
    rewrite !fmap_cons. by f_equal. }
  assert (NoDup kvs.*1) as Hnd by (rewrite Hkeys; apply NoDup_fst_map_to_list).
  destruct (m !! k) as [x|] eqn:Hk.
  - apply elem_of_map_to_list, list_elem_of_lookup in Hk as [i Hi].
    destruct (Forall2_lookup_l _ _ _ _ _ Hall Hi) as ([k' y] & Hi' & Hk' & Hy).
    simpl in *. subst k'.
    rewrite (elem_of_list_to_map_1 kvs k y Hnd); [by constructor|].
    by eapply list_elem_of_lookup_2.
  - rewrite not_elem_of_list_to_map_1; [constructor|].
    rewrite Hkeys. intros Hin.
    apply list_elem_of_fmap in Hin as ([k' x] & -> & Hin). simpl in Hk.
    apply elem_of_map_to_list in Hin. congruence.
Qed.

(** X15.  When the evaluator returns, the report has exactly the contracts
    and source files of the coverage map and, file by file, the function
    names in the same order, and each entry is the result of evaluating that
    function. *)
Theorem report_follows_coverage_map
    (cm : gmap string (gmap string (list (string * FnMaps))))
    (report : gmap string (gmap string (list (string * FnReport)))) :
  evaluate cm = Ok report ->
  forall name,
    option_Forall2
      (fun c rc => forall src,
         option_Forall2
           (Forall2 (fun (kv : string * FnMaps) (kr : string * FnReport) =>
                       kr.1 = kv.1 ∧ evaluate_fn kv.2 = Ok kr.2))
           (c !! src) (rc !! src))
      (cm !! name) (report !! name).
Proof.
  intros Hev name. unfold evaluate in Hev.
  pose proof (dictM_lookup _ _ _ Hev name) as Hname.
  destruct Hname as [c rc Hc|]; constructor.
  intros src. pose proof (dictM_lookup _ _ _ Hc src) as Hsrc.
  destruct Hsrc as [fns reps Hfns|]; constructor.
  apply forM_Forall2 in Hfns.
  eapply Forall2_impl; [exact Hfns|]. intros [fname m] [rname rep]; simpl.
  destruct (evaluate_fn m); simpl; [|done]. by intros [= <- <-].
Qed.

(** ** Only whether a set is empty matters *)

Lemma line_cover_Unhit ln : line_cover ln = Unhit <-> line_hit ln = ∅.
Proof.
  unfold line_cover. case_bool_decide; [done|].
  destruct (branching ln); [|done].
  by destruct (bool_decide (line_true ln = ∅)), (bool_decide (line_false ln = ∅)).
Qed.

(** X16.  The result of a function depends on its run sets only through
    which of them are empty: two functions with the same [total], whose
    lines agree one by one on having a jump and on their state (never hit,
    no outcome, only true, only false, fully covered), and which both have
    or both lack a run, get the same result, however many runs hit them. *)
Theorem result_depends_on_cover_only (m m' : FnMaps) :
  total m = total m' ->
  (fn_tx m = ∅ <-> fn_tx m' = ∅) ->
  Forall2 (fun ln ln' => branching ln = branching ln' ∧
                         line_cover ln = line_cover ln') (line m) (line m') ->
  evaluate_fn m = evaluate_fn m'.
Proof.
  intros Htot Htx Hlines.
  destruct (evaluate_fn_cases m) as (cov & Hs & ->).
  destruct (evaluate_fn_cases m') as (cov' & Hs' & ->).
  destruct (score_cover m) as (cov1 & Hs1 & Hcov).
  destruct (score_cover m') as (cov1' & Hs1' & Hcov').
  assert (cov1 = cov) as -> by congruence.
  assert (cov1' = cov') as -> by congruence.
  assert (units_sum (line m) = units_sum (line m')) as Hunits.
  { clear -Hlines. induction Hlines as [|ln ln' ls ls' [Hb Hc] _ IH]; simpl; [done|].
    unfold line_units, line_weight. by rewrite Hb, Hc, IH. }
  assert (Forall (fun ln => line_hit ln = ∅) (line m)
          <-> Forall (fun ln => line_hit ln = ∅) (line m')) as Hunhit.
  { clear -Hlines. induction Hlines as [|ln ln' ls ls' [Hb Hc] _ IH]; [done|].
    rewrite !Forall_cons, IH, <- !line_cover_Unhit, Hc. done. }
  assert (cov = cov') as ->.
  { assert (forall s i, listed s -> i ∈ cov_of s cov <-> i ∈ cov_of s cov') as Heq.
    { intros s i Hl. rewrite (Hcov s i Hl), (Hcov' s i Hl). split.
      - intros (ln & Hi & Hc).
        destruct (Forall2_lookup_l _ _ _ _ _ Hlines Hi) as (ln' & Hi' & _ & Hc').
        exists ln'. split; [done|congruence].
      - intros (ln' & Hi' & Hc').
        destruct (Forall2_lookup_r _ _ _ _ _ Hlines Hi') as (ln & Hi & _ & Hc).
        exists ln. split; [done|congruence]. }
    destruct cov as [l t f], cov' as [l' t' f'].
    f_equal; apply set_eq; intros i.
    - apply (Heq Full). by left.
    - apply (Heq OnlyTrue). by right; left.
    - apply (Heq OnlyFalse). by right; right. }
  rewrite <- Htot, <- Hunits.
  rewrite (bool_decide_ext _ _ Htx), (bool_decide_ext _ _ Hunhit). done.
Qed.

(** X17.  The report of a history has an entry for exactly the contracts
    named by a step that has both a contract name and a source file, in a
    transaction that has a receiver. *)
Theorem report_contracts_are_the_named_ones
    (get_build : string -> gmap string (list (string * FnMaps)))
    (history : list Tx)
    (report : gmap string (gmap string (list (string * FnReport)))) :
  coverage get_build history = Ok report ->
  dom report = history_contracts history.
Proof.
  unfold coverage, record_history.
  destruct (foldM (record_tx get_build) history ∅) as [cm|e] eqn:Hrec; simpl; [|done].
  intros Hev.
  apply dom_record_txs in Hrec. rewrite dom_empty_L, (left_id_L ∅ (∪)) in Hrec.
  rewrite <- Hrec. apply set_eq. intros name. rewrite !elem_of_dom.
  unfold evaluate in Hev. pose proof (dictM_lookup _ _ _ Hev name) as Hname.
  destruct Hname; split; intros [? ?]; done || eauto.
Qed.

(** * Further properties of the content hash *)

Lemma substring_zero (s : string) : substring 0 0 s = EmptyString.
Proof. by destruct s. Qed.

Lemma substring_split (s : string) : forall k,
  (k <= String.length s)%nat ->
  exists tail, s = substring 0 k s +:+ tail ∧
               String.length tail = (String.length s - k)%nat.
Proof.
  induction s as [|a s IH]; intros k Hk; simpl in *.
  - assert (k = 0%nat) as -> by lia. by exists EmptyString.
  - destruct k as [|k]; simpl.
    + by exists (String a s).
    + destruct (IH k ltac:(lia)) as (tail & Hs & Hlen).
      exists tail. split; [|done].
      change (String a s = String a (substring 0 k s +:+ tail)). by rewrite <- Hs.
Qed.

(** X18.  A bytecode of at most 68 characters is hashed as the empty
    string: the slice [bytecode[:-68]] is empty, so all such bytecodes share
    one hash. *)
Theorem short_bytecode_hashes_as_empty
    (sha1_hexdigest : string -> string) (bytecode : string) :
  (String.length bytecode <= 68)%nat ->
  bytecode_hash sha1_hexdigest bytecode = sha1_hexdigest EmptyString.
Proof.
  intros Hlen. unfold bytecode_hash, drop_last.
  replace (String.length bytecode - 68)%nat with 0%nat by lia.
  by rewrite substring_zero.
Qed.

(** X19.  What is hashed is a prefix of the bytecode: the bytecode is the
    hashed part followed by a tail of 68 characters, or by the whole
    bytecode when it is shorter. *)
Theorem hashed_part_is_prefix (bytecode : string) :
  exists tail,
    bytecode = drop_last 68 bytecode +:+ tail ∧
    String.length tail = Nat.min 68 (String.length bytecode).
Proof.
  unfold drop_last.
  destruct (substring_split bytecode (String.length bytecode - 68) ltac:(lia))
    as (tail & Hs & Hlen).
  exists tail. split; [done|]. lia.
Qed.

(** * The range argument *)

Lemma length_split_on sep s : length (split_on sep s) = S (count_char sep s).
Proof.
  induction s as [|c s IH]; simpl; [done|].
  destruct (Stdlib.Strings.Ascii.eqb c sep); simpl; [by rewrite IH|].
  destruct (split_on sep s); simpl in *; lia.
Qed.

Lemma split_on_none sep s : count_char sep s = 0%nat -> split_on sep s = [s].
Proof.
  induction s as [|c s IH]; simpl; [done|].
  destruct (Stdlib.Strings.Ascii.eqb c sep); simpl; [done|].
  intros Hs. by rewrite IH.
Qed.

Lemma ints_minus_one_Some py_int parts args :
  ints_minus_one py_int parts = Some args <->
  exists ns, Forall2 (fun p n => py_int p = Some n) parts ns ∧
             args = (fun n => n - 1) <$> ns.
Proof.
  revert args. induction parts as [|p ps IH]; intros args; simpl.
  - split.
    + intros [= <-]. exists []. split; [constructor|done].
    + intros (ns & Hns & ->). by inversion Hns.
  - destruct (py_int p) as [n|] eqn:Hp.
    2:{ split; [done|]. intros (ns & Hns & _). inversion Hns; congruence. }
    destruct (ints_minus_one py_int ps) as [ns0|] eqn:Hps.
    + split.
      * intros [= <-]. destruct (proj1 (IH ns0) eq_refl) as (ns & Hns & ->).
        exists (n :: ns). split; [by constructor|done].
      * intros (ns' & Hns' & ->).
        inversion Hns' as [|? n' ? ns'' Hn' Hrest]; subst.
        assert (Some ns0 = Some ((fun n => n - 1) <$> ns'')) as [= ->]
          by (apply IH; eauto).
        rewrite fmap_cons. congruence.
    + split; [done|]. intros (ns' & Hns' & ->).
      inversion Hns' as [|? n' ? ns'' Hn' Hrest]; subst.
      assert (None = Some ((fun n => n - 1) <$> ns'')) as [=]
        by (apply IH; eauto).
Qed.

(** X20.  With one test file, a range is accepted exactly when its pieces
    between colons are one, two or three integers: a single integer [n]
    gives the slice from [n-1] to [n], and with colons every integer is
    lowered by one, the stop included (so [1:4] is the slice from 0 to 3). *)
Theorem range_accepted_exactly_when
    (py_int : string -> option Z) (idx : string) (sl : PySlice) :
  idx ≠ EmptyString ->
  (parse_range py_int 1 (Some idx) = Selected sl <->
   exists ns, Forall2 (fun p n => py_int p = Some n) (split_on colon idx) ns ∧
              range_slice ns = Some sl).
Proof.
  intros Hne. destruct idx as [|c s]; [done|].
  unfold parse_range. simpl Nat.eqb. cbv iota.
  unfold contains_char.
  destruct (count_char colon (String c s) =? 0)%nat eqn:Hcount; simpl negb; cbv iota.
  - apply Nat.eqb_eq in Hcount. rewrite (split_on_none _ _ Hcount).
    destruct (py_int (String c s)) as [n|] eqn:Hn.
    + split.
      * intros [= <-]. exists [n]. split; [by repeat constructor|done].
      * intros (ns & Hns & Hsl).
        inversion Hns as [|? n' ? ? Hn' Hrest]; subst. inversion Hrest; subst.
        assert (n' = n) as -> by congruence. simpl in Hsl. congruence.
    + split; [done|]. intros (ns & Hns & _).
      inversion Hns; subst. congruence.
  - apply Nat.eqb_neq in Hcount.
    pose proof (length_split_on colon (String c s)) as Hlen.
    destruct (ints_minus_one py_int (split_on colon (String c s))) as [args|] eqn:Hargs.
    + apply ints_minus_one_Some in Hargs as (ns & Hns & ->).
      pose proof (Forall2_length _ _ _ Hns) as Hlen2.
      assert (forall ns', Forall2 (fun p n => py_int p = Some n)
                            (split_on colon (String c s)) ns' -> ns' = ns) as Huniq.
      { clear Hlen Hlen2. revert Hns. generalize (split_on colon (String c s)).
        intros parts Hns. induction Hns; intros ns' Hns'; inversion Hns'; subst;
          [done|]. f_equal; [congruence|auto]. }
      destruct ns as [|a [|b [|d [|x ns]]]]; simpl in *; try lia.
      * split; [by intros [= <-]; eauto|].
        intros (ns' & Hns' & Hsl). rewrite (Huniq _ Hns') in Hsl. simpl in Hsl. congruence.
      * split; [by intros [= <-]; eauto|].
        intros (ns' & Hns' & Hsl). rewrite (Huniq _ Hns') in Hsl. simpl in Hsl. congruence.
      * split; [done|].
        intros (ns' & Hns' & Hsl). rewrite (Huniq _ Hns') in Hsl. by simpl in Hsl.
    + split; [done|]. intros (ns & Hns & _).
      assert (ints_minus_one py_int (split_on colon (String c s))
              = Some ((fun n => n - 1) <$> ns)) as Heq.
      { apply ints_minus_one_Some. eauto. }
      congruence.
Qed.

(** With one test file the other exit is never taken: a range that is not
    accepted ends in the invalid-range exit. *)
Lemma range_of_one_file_selected_or_invalid
    (py_int : string -> option Z) (idx : string) :
  parse_range py_int 1 (Some idx) ≠ ExitMultipleFiles.
Proof.
  destruct idx as [|c s]; [done|].
  unfold parse_range. simpl Nat.eqb. cbv iota.
  repeat case_match; done.
Qed.

(** X21.  A range with more than two colons is always refused, whatever
    stands between them: [slice] takes at most three arguments. *)
Theorem range_with_three_colons_refused
    (py_int : string -> option Z) (idx : string) :
  (3 <= count_char colon idx)%nat ->
  parse_range py_int 1 (Some idx) = ExitInvalidRange.
Proof.
  intros Hcount. destruct idx as [|c s]; [simpl in Hcount; lia|].
  unfold parse_range. simpl Nat.eqb. cbv iota. unfold contains_char.
  destruct (count_char colon (String c s) =? 0)%nat eqn:Hz;
    [apply Nat.eqb_eq in Hz; lia|]. simpl negb. cbv iota.
  pose proof (length_split_on colon (String c s)) as Hlen.
  destruct (ints_minus_one py_int (split_on colon (String c s))) as [args|] eqn:Hargs;
    [|done].
  apply ints_minus_one_Some in Hargs as (ns & Hns & ->).
  pose proof (Forall2_length _ _ _ Hns) as Hlen2.
  destruct ns as [|a [|b [|d [|x ns]]]]; simpl in *; try lia. done.
Qed.

(** * The colour of a percentage *)

(** X22.  A percentage gets the first colour whose threshold it does not
    exceed: red up to 0.5, yellow above 0.5 up to 0.85, green above 0.85 up
    to 1; above 1 no colour is found and the display raises
    [StopIteration]. *)
Theorem colour_bands (pct : Qcanon.Qc) :
  let half := Qcanon.Q2Qc (QArith_base.Qmake 1 2) in
  let high := Qcanon.Q2Qc (QArith_base.Qmake 85 100) in
  let one := Qcanon.Q2Qc (QArith_base.Qmake 1 1) in
  (coverage_color pct = Some "bright red"%string <-> Qcanon.Qcle pct half) ∧
  (coverage_color pct = Some "bright yellow"%string <->
   Qcanon.Qclt half pct ∧ Qcanon.Qcle pct high) ∧
  (coverage_color pct = Some "bright green"%string <->
   Qcanon.Qclt high pct ∧ Qcanon.Qcle pct one) ∧
  (coverage_color pct = None <-> Qcanon.Qclt one pct).
Proof.
  intros half high one.
  assert (Qcanon.Qcle pct half -> Qcanon.Qcle pct high) as F1.
  { intros H. by eapply Qcanon.Qcle_trans. }
  assert (Qcanon.Qcle pct high -> Qcanon.Qcle pct one) as F2.
  { intros H. by eapply Qcanon.Qcle_trans. }
  assert (forall x, Qcanon.Qclt x pct <-> ¬ Qcanon.Qcle pct x) as Hlt.
  { intros x. split; [apply Qcanon.Qclt_not_le|apply Qcanon.Qcnot_le_lt]. }
  rewrite !Hlt.
  unfold coverage_color, COVERAGE_COLORS.
  rewrite !list_find_cons_eq. simpl fst. fold half high one.
  destruct (decide (Qcanon.Qcle pct half)) as [H1|H1];
    [|destruct (decide (Qcanon.Qcle pct high)) as [H2|H2];
      [|destruct (decide (Qcanon.Qcle pct one)) as [H3|H3]]];
    simpl; split_and!;
    (split; [intros Heq; try discriminate Heq; tauto
            |intros; try reflexivity; exfalso; tauto]).
Qed.

(** * The further properties at concrete inputs *)

Lemma recording_only_adds_runs_witness :
  contract_rel fn_le (contract_view ex_build "A" ∅)
    {[ "a.sol"%string := [("f"%string, ex_fn_recorded)] ]}.
Proof.
  pose proof (recording_only_adds_runs ex_build [ex_tx] ∅ (ex_cm ex_fn_recorded)) as H.
  destruct H as [_ H]; [vm_compute; reflexivity|].
  apply (H "A"%string). vm_compute. reflexivity.
Defined.

Lemma recording_leaves_other_runs_witness :
  contract_rel (fn_same_for 99) (contract_view ex_build "A" ∅)
    (contract_view ex_build "A" (ex_cm ex_fn_recorded)).
Proof.
  apply (recording_leaves_other_runs ex_build [ex_tx] ∅ (ex_cm ex_fn_recorded) 99).
  - intros Hin. apply list_elem_of_singleton in Hin. discriminate Hin.
  - vm_compute. reflexivity.
Defined.

Lemma loaded_contracts_are_the_named_ones_witness :
  dom (ex_cm ex_fn_recorded) = dom (∅ : gmap string (gmap string (list (string * FnMaps))))
                               ∪ history_contracts [ex_tx].
Proof.
  apply (loaded_contracts_are_the_named_ones ex_build).
  vm_compute. reflexivity.
Defined.

Lemma irrelevant_transaction_changes_nothing_witness :
  record_tx ex_build ex_tx_no_receiver (ex_cm ex_fn_recorded)
  = Ok (ex_cm ex_fn_recorded).
Proof.
  apply irrelevant_transaction_changes_nothing. left. reflexivity.
Defined.

Lemma pct_one_exactly_when_fully_covered_witness :
  evaluate_fn ex_fn_both = Ok pct_one <->
  line ex_fn_both ≠ [] ∧ Forall (fun ln => line_cover ln = Full) (line ex_fn_both).
Proof.
  apply pct_one_exactly_when_fully_covered.
  - reflexivity.
  - repeat constructor; vm_compute; set_solver.
Defined.

Lemma pct_between_zero_and_one_witness :
  exists rep, evaluate_fn ex_fn_recorded = Ok rep ∧ 0 <= report_pct rep <= 100.
Proof.
  apply pct_between_zero_and_one. reflexivity.
Defined.

Lemma recording_never_lowers_score_witness :
  exists fns' m' count cov count' cov',
    contract_view ex_build "A" (ex_cm ex_fn_two) !! "a.sol"%string = Some fns' ∧
    fns' !! 0%nat = Some ("f"%string, m') ∧
    score ex_fn_recorded = Ok (count, cov) ∧ score m' = Ok (count', cov') ∧
    count <= count' ∧
    cov_line cov ⊆ cov_line cov' ∧
    (forall i, in_cov i cov -> in_cov i cov').
Proof.
  apply (recording_never_lowers_score ex_build [ex_tx_both] (ex_cm ex_fn_recorded)
           (ex_cm ex_fn_two) "A" "a.sol" [("f"%string, ex_fn_recorded)]);
    vm_compute; reflexivity.
Defined.

Lemma report_follows_coverage_map_witness :
  option_Forall2
    (fun c rc => forall src,
       option_Forall2
         (Forall2 (fun (kv : string * FnMaps) (kr : string * FnReport) =>
                     kr.1 = kv.1 ∧ evaluate_fn kv.2 = Ok kr.2))
         (c !! src) (rc !! src))
    (ex_cm ex_fn_recorded !! "A"%string)
    (({[ "A"%string :=
          {[ "a.sol"%string :=
             [("f"%string, Detail (mkCov {[0%nat]} {[1%nat]} ∅) 67)] ]} ]}
      : gmap string (gmap string (list (string * FnReport)))) !! "A"%string).
Proof.
  apply report_follows_coverage_map. vm_compute. reflexivity.
Defined.

Lemma short_bytecode_hashes_as_empty_witness :
  bytecode_hash (fun s => s) "6080" = EmptyString.
Proof.
  apply (short_bytecode_hashes_as_empty (fun s => s) "6080"). simpl. lia.
Defined.

Lemma range_accepted_exactly_when_witness :
  parse_range ex_int 1 (Some "1:4"%string) = Selected (mkSlice (Some 0) (Some 3) None).
Proof.
  apply (range_accepted_exactly_when ex_int "1:4"); [discriminate|].
  exists [1; 4]. split; [|reflexivity].
  repeat constructor.
Defined.

Lemma range_with_three_colons_refused_witness :
  parse_range ex_int 1 (Some "1:4:1:4"%string) = ExitInvalidRange.
Proof.
  apply range_with_three_colons_refused. vm_compute. lia.
Defined.

Lemma coverage_ok_witness :
  exists report, coverage ex_build [ex_tx] = Ok report.
Proof.
  apply coverage_ok.
  - apply ex_build_Forall. discriminate.
  - apply Forall_cons; split; [|by apply Forall_nil]. intros i t Hi.
    destruct i as [|[|[|[|k]]]]; try discriminate Hi; injection Hi as <-;
      (split; [intros _ _; vm_compute; eauto
              |intros Hop; try discriminate Hop; vm_compute; eauto]).
Defined.

Lemma hit_runs_within_function_runs_witness :
  cm_Forall hit_in_fn (ex_cm ex_fn_recorded).
Proof.
  apply (hit_runs_within_function_runs ex_build [ex_tx]).
  - apply ex_build_Forall. repeat constructor; vm_compute; set_solver.
  - vm_compute. reflexivity.
Defined.

Lemma result_depends_on_cover_only_witness :
  evaluate_fn ex_fn_both = evaluate_fn ex_fn_two.
Proof.
  apply result_depends_on_cover_only.
  - reflexivity.
  - split; intros Hempty; apply (f_equal size) in Hempty; vm_compute in Hempty;
      discriminate Hempty.
  - repeat constructor; vm_compute; reflexivity.
Defined.

Lemma report_contracts_are_the_named_ones_witness :
  dom ({[ "A"%string :=
          {[ "a.sol"%string :=
             [("f"%string, Detail (mkCov {[0%nat]} {[1%nat]} ∅) 67)] ]} ]}
       : gmap string (gmap string (list (string * FnReport))))
  = history_contracts [ex_tx].
Proof.
  apply (report_contracts_are_the_named_ones ex_build). vm_compute. reflexivity.
Defined.
